(** * mstem: a rule-driven stemmer, embedded from [mstem/mstem.py]

    The development follows the Python module function by function:
    the lexicon and rule loaders of [Stemmer.__init__], the rewrite loop
    of [Stemmer.stem], the shared traversal [Stemmer._parse] and the
    output shapers built on it.

    Python values are modelled as follows.
    - A [str] is the list of its Unicode code points ([list N]).
    - A [set] of strings is a [gset (list N)].
    - A [deque] is a list read left to right; [appendleft] is a cons.
    - An exception is a constructor of [exn], carried by [result].
    - The two libraries the module calls, [unicodedata] and [regex], are
      interfaces ([Unicode], [PatternEngine]); every general theorem holds
      for all their implementations, and one executable implementation of
      each is given to run the code on concrete inputs. *)

From stdpp Require Import base list gmap strings.

Abbreviation str := (list N).

(** An ASCII literal as a Python string: one code point per character. *)
Definition lit (s : string) : str :=
  Ascii.N_of_ascii <$> String.list_ascii_of_string s.

(** ** Exceptions *)

Inductive exn : Type :=
| FileNotFoundError
| StopIteration
| ValueError
| IndexError
| ReError
| MalformedRuleError (a : str).

Inductive result (A : Type) : Type :=
| Ok (a : A)
| Raise (e : exn).
Arguments Ok {A} a.
Arguments Raise {A} e.

#[global] Instance result_ret : MRet result := λ A a, Ok a.
#[global] Instance result_bind : MBind result := λ A B k r,
  match r with
  | Ok a => k a
  | Raise e => Raise e
  end.

#[global] Instance result_fmap : FMap result := λ A B f r,
  match r with
  | Ok a => Ok (f a)
  | Raise e => Raise e
  end.

(** [for x in xs: acc = body(acc, x)], where the body may raise. *)
Fixpoint for_each {A S : Type} (body : S → A → result S) (xs : list A) (acc : S)
  : result S :=
  match xs with
  | [] => Ok acc
  | x :: xs' => acc' ← body acc x; for_each body xs' acc'
  end.

(** ** String primitives of the Python runtime *)

(** [str.isspace] on one code point: the characters [str.strip()] removes. *)
Definition is_space (c : N) : bool :=
  ((9 <=? c) && (c <=? 13) || (28 <=? c) && (c <=? 32)
   || (c =? 133) || (c =? 160) || (c =? 5760)
   || (8192 <=? c) && (c <=? 8202)
   || (c =? 8232) || (c =? 8233) || (c =? 8239) || (c =? 8287)
   || (c =? 12288))%N.

Fixpoint lstrip (s : str) : str :=
  match s with
  | c :: s' => if is_space c then lstrip s' else s
  | [] => []
  end.

(** [s.strip()] *)
Definition strip (s : str) : str := reverse (lstrip (reverse (lstrip s))).

Fixpoint starts_with (p s : str) : bool :=
  match p, s with
  | [], _ => true
  | a :: p', b :: s' => (a =? b)%N && starts_with p' s'
  | _ :: _, [] => false
  end.

(** The scan of [s.split(sep)] for a non-empty [sep]: [cur] holds the
    field being read (reversed), [skip] the characters of a separator
    occurrence that are still to be passed over. *)
Fixpoint split_scan (sep s cur : str) (skip : nat) : list str :=
  match s with
  | [] => [reverse cur]
  | c :: s' =>
      match skip with
      | S k => split_scan sep s' cur k
      | O =>
          if starts_with sep s
          then reverse cur :: split_scan sep s' [] (length sep - 1)
          else split_scan sep s' (c :: cur) 0
      end
  end.

(** [s.split(sep)]; an empty separator raises [ValueError]. *)
Definition split (s sep : str) : result (list str) :=
  match sep with
  | [] => Raise ValueError
  | _ :: _ => Ok (split_scan sep s [] 0)
  end.

(** The first field of [s.split(sep)]: the text before the first
    occurrence of [sep]. *)
Definition first_field (sep s : str) : str :=
  default [] (head (split_scan sep s [] 0)).

(** [xs[0]] *)
Definition item0 {A : Type} (xs : list A) : result A :=
  match xs !! 0 with
  | Some x => Ok x
  | None => Raise IndexError
  end.

Definition is_ok {A : Type} (r : result A) : bool :=
  match r with
  | Ok _ => true
  | Raise _ => false
  end.

(** A pattern without a recognisable anchor: it does not both start with
    two opening braces and end with two closing ones, does not begin with
    [^] and does not end with [$]. *)
Definition anchorless (a : str) : bool :=
  negb (bool_decide (take 2 a = lit "{{" ∧ drop (length a - 2) a = lit "}}"))
  && negb (bool_decide (head a = Some 94%N))
  && negb (bool_decide (last a = Some 36%N)).

(** ** The lexicon loader *)

(** The body of the inner loop of [_read_lex] for one [line]. *)
Definition read_lex_line (delimiter : str) (lexicon : gset (list N)) (line : str)
  : result (gset (list N)) :=
  let line := strip line in
  records ← split line delimiter;
  r0 ← item0 records;
  Ok ({[ r0 ]} ∪ lexicon).

(** [Stemmer._read_lex].  A file is the list of its lines, as iterating
    over the open file yields them. *)
Definition _read_lex (lex_fns : list (list str)) (delimiter : str)
  : result (gset (list N)) :=
  for_each (λ lexicon f, for_each (read_lex_line delimiter) f lexicon)
    lex_fns ∅.

(** The lexicon after one more line, when nothing raises. *)
Definition lex_line (delimiter : str) (lexicon : gset (list N)) (line : str)
  : gset (list N) :=
  {[ first_field delimiter (strip line) ]} ∪ lexicon.

(** ** [unicodedata.normalize('NFD', _)] *)

(** The character database behind normalisation: the full canonical
    decomposition of a code point and its canonical combining class. *)
Class Unicode : Type := {
  decompose : N → str;
  combining_class : N → N;
}.

Section Nfd.
Context `{Unicode}.

(** Canonical ordering, one character at a time: [out] is the text
    already ordered, last character first.  A combining mark moves left
    past the marks of a higher class; a starter (class 0) stays. *)
Fixpoint place (c : N) (out : str) : str :=
  match out with
  | d :: out' =>
      if ((0 <? combining_class c) && (combining_class c <? combining_class d))%N
      then d :: place c out'
      else c :: out
  | [] => [c]
  end.

(** [normalize('NFD', s)]: decompose every character, then order. *)
Definition normalize (s : str) : str :=
  reverse (foldl (λ out c, place c out) [] (s ≫= decompose)).
End Nfd.

(** ** The [regex] module *)

(** What the stemmer needs of a compiled pattern.  [match_at r s pos adv]
    is the end of the match of [r] in [s] that begins exactly at [pos], as
    the engine prefers it; with [adv] set, only a match that consumes at
    least one character counts.  [template_ok r repl] tells whether the
    module accepts the replacement template [repl] for [r]: [r.sub] raises
    [regex.error] on a template it does not accept, and does so before it
    looks for a match.  [expand r repl s b e] is an accepted template
    [repl] filled in for the match [s[b:e]].  [compile] is [None] where
    [regex.compile] raises. *)
Class PatternEngine : Type := {
  regex : Type;
  compile : str → option regex;
  match_at : regex → str → nat → bool → option nat;
  template_ok : regex → str → bool;
  expand : regex → str → str → nat → nat → str;
}.

Section Regex.
Context `{PatternEngine}.

(** The leftmost match at or after [pos]; [n] positions remain after
    [pos].  Only the first position tried is subject to [adv]. *)
Fixpoint scan (r : regex) (s : str) (pos : nat) (adv : bool) (n : nat)
  : option (nat * nat) :=
  match match_at r s pos adv with
  | Some e => Some (pos, e)
  | None =>
      match n with
      | O => None
      | S n' => scan r s (S pos) false n'
      end
  end.

Definition search_from (r : regex) (s : str) (pos : nat) (adv : bool)
  : option (nat * nat) :=
  scan r s pos adv (length s - pos).

(** [r.search(s)], as the span of the match. *)
Definition search (r : regex) (s : str) : option (nat * nat) :=
  search_from r s 0 false.

(** [s[b:e]] *)
Definition slice (s : str) (b e : nat) : str := take (e - b) (drop b s).

(** [m.group(0)] *)
Definition group0 (s : str) (m : nat * nat) : str := slice s m.1 m.2.

(** The successive non-overlapping matches of [r] in [s] from [pos] on,
    as [r.finditer(s)] and [r.sub] visit them: after a match the search
    resumes at its end, and after an empty match it must advance. *)
Fixpoint matches_from (r : regex) (s : str) (pos : nat) (adv : bool)
    (fuel : nat) : list (nat * nat) :=
  match fuel with
  | O => []
  | S fuel' =>
      match search_from r s pos adv with
      | None => []
      | Some (b, e) => (b, e) :: matches_from r s e (e =? b) fuel'
      end
  end.

(** No string has more matches than this. *)
Definition sub_fuel (s : str) : nat := 2 * length s + 2.

Definition finditer (r : regex) (s : str) : list (nat * nat) :=
  matches_from r s 0 false (sub_fuel s).

(** The loop of [r.sub(repl, s, count)]: [i] is the end of the text
    already copied; [count = 0] asks for every match. *)
Fixpoint sub_loop (r : regex) (repl s : str) (i pos : nat) (adv : bool)
    (count : option nat) (fuel : nat) : str :=
  match fuel, count with
  | O, _ | _, Some O => drop i s
  | S fuel', _ =>
      match search_from r s pos adv with
      | None => drop i s
      | Some (b, e) =>
          slice s i b ++ expand r repl s b e
            ++ sub_loop r repl s e e (e =? b) (pred <$> count) fuel'
      end
  end.

(** [s] with each of the given matches replaced, from position [i] on. *)
Fixpoint replace_spans (r : regex) (repl s : str) (i : nat)
    (spans : list (nat * nat)) : str :=
  match spans with
  | [] => drop i s
  | (b, e) :: spans' =>
      slice s i b ++ expand r repl s b e ++ replace_spans r repl s e spans'
  end.

(** A match lies inside the string, and consumes a character when it
    is asked to. *)
Definition well_behaved : Prop :=
  ∀ r s pos adv e, pos ≤ length s → match_at r s pos adv = Some e →
    pos ≤ e ≤ length s ∧ (adv = true → pos < e).

(** Matches of [r] in [s] that follow one another from [pos] on without
    overlapping. *)
Fixpoint chained (r : regex) (s : str) (pos : nat) (spans : list (nat * nat))
  : Prop :=
  match spans with
  | [] => True
  | (b, e) :: spans' =>
      pos ≤ b ∧ b ≤ e ∧ e ≤ length s
      ∧ (∃ adv, match_at r s b adv = Some e)
      ∧ chained r s e spans'
  end.

(** What [r.sub(repl, s, count)] returns when it accepts the template. *)
Definition substitute (r : regex) (repl s : str) (count : nat) : str :=
  sub_loop r repl s 0 0 false
    (if decide (count = 0) then None else Some count) (sub_fuel s).

(** [r.sub(repl, s, count)]: the template is checked first, whether or
    not the pattern is found in [s]. *)
Definition sub (r : regex) (repl s : str) (count : nat) : result str :=
  if template_ok r repl then Ok (substitute r repl s count)
  else Raise ReError.
End Regex.

(** ** The stemmer *)

Inductive position : Type := Delete | Prefix | Suffix.

Definition position_eqb (p q : position) : bool :=
  match p, q with
  | Delete, Delete | Prefix, Prefix | Suffix, Suffix => true
  | _, _ => false
  end.

(** [class_re.match(m)] for [class_re = \{\{[A-Z]+\}\}]: [m] begins with
    two opening braces, one or more capital ASCII letters and two closing
    braces. *)
Definition is_upper (c : N) : bool := ((65 <=? c) && (c <=? 90))%N.

Fixpoint skip_upper (s : str) : str :=
  match s with
  | c :: s' => if is_upper c then skip_upper s' else s
  | [] => []
  end.

Definition class_re_match (m : str) : bool :=
  match m with
  | 123%N :: 123%N :: c :: m' =>
      is_upper c && starts_with [125; 125]%N (skip_upper m')
  | _ => false
  end.

(** [deque.extendleft]: a series of [appendleft]. *)
Definition extendleft {A : Type} (d : list A) (items : list A) : list A :=
  foldl (λ d x, x :: d) d items.

Section Stemmer.
Context `{Unicode} `{PatternEngine}.

(** One entry of [self.rules]: [(pos, a_re, b, glosses)]. *)
Definition rule : Type := position * regex * str * list str.

Record Stemmer : Type := {
  lexicon : gset (list N);
  rules : list rule;
}.

(** The anchor test of [_read_rules] on the normalised pattern [a]. *)
Definition classify (a : str) : result position :=
  if bool_decide (take 2 a = lit "{{" ∧ drop (length a - 2) a = lit "}}")
  then Ok Delete
  else
    a0 ← item0 a;
    if bool_decide (a0 = 94%N) then Ok Prefix
    else
      al ← item0 (reverse a);
      if bool_decide (al = 36%N) then Ok Suffix
      else Raise (MalformedRuleError a).

(** The body of the loop of [_read_rules] for one record [line]. *)
Definition read_rule (line : list str) : result rule :=
  match line with
  | [a; b; glosses] =>
      let a := normalize a in
      let b := normalize b in
      pos ← classify a;
      a_re ← (match compile a with Some r => Ok r | None => Raise ReError end);
      gl ← split glosses (lit ".");
      Ok (pos, a_re, b, gl)
  | _ => Raise ValueError
  end.

(** The file [_read_rules] opens.  [outside] holds the records of the
    file named [rule_fn] when that path exists, [packaged] those of the
    file of that name inside the package when it exists. *)
Definition resolve (outside packaged : option (list (list str)))
  : result (list (list str)) :=
  match outside, packaged with
  | Some f, _ => Ok f
  | None, Some f => Ok f
  | None, None => Raise FileNotFoundError
  end.

(** [Stemmer._read_rules] *)
Definition _read_rules (outside packaged : option (list (list str)))
  : result (list rule) :=
  reader ← resolve outside packaged;
  match reader with
  | [] => Raise StopIteration
  | _ :: reader' =>
      for_each (λ rules line, r ← read_rule line; Ok (rules ++ [r]))
        reader' []
  end.

(** [Stemmer.__init__] *)
Definition __init__ (outside packaged : option (list (list str)))
    (lex_fns : list (list str)) (delimiter : str) : result Stemmer :=
  lexicon ← _read_lex lex_fns delimiter;
  rules ← _read_rules outside packaged;
  Ok {| lexicon := lexicon; rules := rules |}.

(** The loop of [Stemmer.stem]. *)
Fixpoint stem_loop (lexicon : gset (list N)) (rules : list rule) (token : str)
  : result str :=
  match rules with
  | [] => Ok token
  | (_, a_re, b, _) :: rules' =>
      if bool_decide (token ∈ lexicon) then Ok token
      else
        token ← sub a_re b token 0;
        stem_loop lexicon rules' token
  end.

(** [Stemmer.stem] *)
Definition stem (self : Stemmer) (token : str) : result str :=
  let token := normalize token in
  stem_loop (lexicon self) (rules self) token.

(** The evidence one matching rule adds to the two deques. *)
Definition record_evidence (gloss : bool) (pos : position) (gl : list str)
    (m : str) (prefixes suffixes : list str) : list str * list str :=
  if class_re_match m then (prefixes, suffixes)
  else if gloss then
    match pos with
    | Suffix => (prefixes, extendleft suffixes gl)
    | Prefix => (prefixes ++ gl, suffixes)
    | Delete => (prefixes, suffixes)
    end
  else
    match pos with
    | Suffix => (prefixes, m :: suffixes)
    | Prefix => (prefixes ++ [m], suffixes)
    | Delete => (prefixes, suffixes)
    end.

(** The loop of [Stemmer._parse]. *)
Fixpoint _parse_loop (lexicon : gset (list N)) (gloss : bool)
    (rules : list rule) (prefixes : list str) (token : str)
    (suffixes : list str) : result (list str * str * list str) :=
  match rules with
  | [] => Ok (prefixes, token, suffixes)
  | (pos, a_re, b, gl) :: rules' =>
      if bool_decide (token ∈ lexicon) then Ok (prefixes, token, suffixes)
      else
        match search a_re token with
        | Some mt =>
            let m := group0 token mt in
            let '(prefixes, suffixes) :=
              record_evidence gloss pos gl m prefixes suffixes in
            token ← sub a_re b token 1;
            _parse_loop lexicon gloss rules' prefixes token suffixes
        | None => _parse_loop lexicon gloss rules' prefixes token suffixes
        end
  end.

(** [Stemmer._parse] *)
Definition _parse (self : Stemmer) (token : str) (gloss : bool)
  : result (list str * str * list str) :=
  let token := normalize token in
  _parse_loop (lexicon self) gloss (rules self) [] token [].

(** [Stemmer.parse] *)
Definition parse (self : Stemmer) (token : str) (gloss : bool)
  : result (list str) :=
  '(prefixes, stem, suffixes) ← _parse self token gloss;
  let morphemes := [] in
  let morphemes := morphemes ++ prefixes in
  let morphemes := morphemes ++ [stem] in
  let morphemes := morphemes ++ suffixes in
  Ok morphemes.

(** [Stemmer.parse_wp] *)
Definition parse_wp (self : Stemmer) (token : str)
  : result (str * gset (list N)) :=
  '(prefixes, stem, suffixes) ← _parse self token true;
  let glosses := [] in
  let glosses := glosses ++ prefixes in
  let glosses := glosses ++ suffixes in
  Ok (stem, list_to_set glosses).

(** [Stemmer.segment] *)
Definition segment (self : Stemmer) (token : str) : result (str * str * str) :=
  '(prefixes, stem, suffixes) ← _parse self token false;
  Ok (concat prefixes, stem, concat suffixes).

(** [Stemmer.gloss] *)
Definition gloss (self : Stemmer) (token : str) : result (list str) :=
  parse self token true.
End Stemmer.

(** ** The rewrite loop as a state machine

    The loops again, logging what they do: how each one halts and which
    rules (by index in the table) had their pattern searched and their
    substitution run.  [stem_trace_spec] and [_parse_trace_spec] below
    show that the logged loops compute what the plain ones do. *)

Inductive halt : Type :=
| Matched    (* left by [break]: the token is in the lexicon *)
| Exhausted  (* the rule table was consumed *)
| Raised.    (* left by the exception of a substitution *)

Record log : Type := {
  halted : halt;
  searched : list nat;
  substituted : list nat;
  pushes : list (position * list str);
}.

Definition log_search (i : nat) (l : log) : log :=
  {| halted := halted l; searched := i :: searched l;
     substituted := substituted l; pushes := pushes l |}.

Definition log_sub (i : nat) (l : log) : log :=
  {| halted := halted l; searched := searched l;
     substituted := i :: substituted l; pushes := pushes l |}.

Definition log_push (p : list (position * list str)) (l : log) : log :=
  {| halted := halted l; searched := searched l;
     substituted := substituted l; pushes := p ++ pushes l |}.

Definition stop (h : halt) : log :=
  {| halted := h; searched := []; substituted := []; pushes := [] |}.

(** What a matching rule pushes, and onto which deque. *)
Definition pushed (gloss : bool) (pos : position) (gl : list str) (m : str)
  : list (position * list str) :=
  if class_re_match m then []
  else match pos with
       | Delete => []
       | _ => [(pos, if gloss then gl else [m])]
       end.

(** Everything the run pushed for rules of position [p], oldest first. *)
Definition pushes_at (p : position) (l : log) : list str :=
  pushes l ≫= λ e, if position_eqb e.1 p then e.2 else [].

(** What the deques of a result hold when the loop began with [prefixes]
    and [suffixes]: the prefix pushes of the log after the first, the
    suffix pushes reversed before the second. *)
Definition deques_are (prefixes suffixes : list str) (l : log)
    (r : result (list str * str * list str)) : Prop :=
  match r with
  | Ok (p, _, s) =>
      p = prefixes ++ pushes_at Prefix l
      ∧ s = reverse (pushes_at Suffix l) ++ suffixes
  | Raise _ => True
  end.

Section Trace.
Context `{Unicode} `{PatternEngine}.

(** [stem_loop] from rule number [i] on. *)
Fixpoint stem_trace (lexicon : gset (list N)) (rules : list rule) (i : nat)
    (token : str) : result str * log :=
  match rules with
  | [] => (Ok token, stop Exhausted)
  | (_, a_re, b, _) :: rules' =>
      if bool_decide (token ∈ lexicon) then (Ok token, stop Matched)
      else
        match sub a_re b token 0 with
        | Ok token =>
            let '(t, l) := stem_trace lexicon rules' (S i) token in
            (t, log_sub i l)
        | Raise e => (Raise e, log_sub i (stop Raised))
        end
  end.

(** [_parse_loop] from rule number [i] on. *)
Fixpoint _parse_trace (lexicon : gset (list N)) (gloss : bool)
    (rules : list rule) (i : nat) (prefixes : list str) (token : str)
    (suffixes : list str) : result (list str * str * list str) * log :=
  match rules with
  | [] => (Ok (prefixes, token, suffixes), stop Exhausted)
  | (pos, a_re, b, gl) :: rules' =>
      if bool_decide (token ∈ lexicon)
      then (Ok (prefixes, token, suffixes), stop Matched)
      else
        match search a_re token with
        | Some mt =>
            let m := group0 token mt in
            let '(prefixes, suffixes) :=
              record_evidence gloss pos gl m prefixes suffixes in
            let '(r, l) :=
              match sub a_re b token 1 with
              | Ok token =>
                  _parse_trace lexicon gloss rules' (S i) prefixes token
                    suffixes
              | Raise e => (Raise e, stop Raised)
              end in
            (r, log_search i (log_sub i (log_push (pushed gloss pos gl m) l)))
        | None =>
            let '(r, l) :=
              _parse_trace lexicon gloss rules' (S i) prefixes token suffixes in
            (r, log_search i l)
        end
  end.

(** How a run over [rules], whose first rule has number [first] in the
    table, may halt once it has tried the rules [tried]: on a token that
    is a lexicon entry, before the table is consumed; on a token, with
    every rule tried; or on [regex.error], the last rule tried having a
    replacement template the pattern engine does not accept. *)
Definition halts_on (lexicon : gset (list N)) (rules : list rule) (first : nat)
    (tried : list nat) (token : result str) (h : halt) : Prop :=
  match h, token with
  | Matched, Ok token => token ∈ lexicon ∧ length tried < length rules
  | Exhausted, Ok _ => length tried = length rules
  | Raised, Raise e =>
      e = ReError ∧ length tried ≤ length rules
      ∧ ∃ i r, last tried = Some i ∧ rules !! (i - first) = Some r
          ∧ template_ok r.1.1.2 r.1.2 = false
  | _, _ => False
  end.

Definition stem_log (self : Stemmer) (token : str) : log :=
  (stem_trace (lexicon self) (rules self) 0 (normalize token)).2.

Definition _parse_log (self : Stemmer) (token : str) (gloss : bool) : log :=
  (_parse_trace (lexicon self) gloss (rules self) 0 [] (normalize token) []).2.
End Trace.

(** ** Executable instances of the two libraries *)

(** An excerpt of the Unicode character database: a few precomposed
    Latin letters with their full canonical decompositions, and the
    combining classes of the marks involved.  Exact for text over ASCII
    and these code points. *)
Definition latin_decompose (c : N) : str :=
  (if c =? 0xE0 then [0x61; 0x300]
   else if c =? 0xE1 then [0x61; 0x301]
   else if c =? 0xE7 then [0x63; 0x327]
   else if c =? 0xE8 then [0x65; 0x300]
   else if c =? 0xE9 then [0x65; 0x301]
   else if c =? 0xF1 then [0x6E; 0x303]
   else if c =? 0xFC then [0x75; 0x308]
   else if c =? 0x1E09 then [0x63; 0x327; 0x301]
   else [c])%N.

Definition latin_combining_class (c : N) : N :=
  (if (0x300 <=? c) && (c <=? 0x304) || (c =? 0x308) then 230
   else if c =? 0x323 then 220
   else if c =? 0x327 then 202
   else 0)%N.

#[global] Instance latin_excerpt : Unicode :=
  {| decompose := latin_decompose; combining_class := latin_combining_class |}.

(** A fragment of the pattern language: a literal text, optionally tied
    to the start of the string by [^] and to its end by [$].  [compile]
    is [None] outside the fragment. *)
Record anchored : Type := {
  bol : bool;
  body : str;
  eol : bool;
}.

Definition is_alnum (c : N) : bool :=
  ((48 <=? c) && (c <=? 57) || (65 <=? c) && (c <=? 90)
   || (97 <=? c) && (c <=? 122))%N.

(** The characters of a literal text: letters, digits, [-], everything
    beyond ASCII, a closing brace, and an opening brace that can start
    neither a repeat count nor a fuzzy constraint. *)
Fixpoint plain (s : str) : bool :=
  match s with
  | [] => true
  | c :: s' =>
      (is_alnum c || (c =? 45) || (128 <=? c) || (c =? 125)
       || (c =? 123) && match s' with
                        | d :: _ => (d =? 123) || is_upper d
                        | [] => false
                        end)%N
      && plain s'
  end.

Definition anchored_compile (a : str) : option anchored :=
  let '(bol, a) := match a with
                   | 94%N :: a' => (true, a')
                   | _ => (false, a)
                   end in
  let '(eol, a) := match reverse a with
                   | 36%N :: a' => (true, reverse a')
                   | _ => (false, a)
                   end in
  if plain a then Some {| bol := bol; body := a; eol := eol |} else None.

(** [$] holds at the end of the string and before a final newline. *)
Definition at_end (s : str) (e : nat) : bool :=
  (e =? length s) || (S e =? length s) && bool_decide (s !! e = Some 10%N).

Definition anchored_match_at (r : anchored) (s : str) (pos : nat) (adv : bool)
  : option nat :=
  let e := pos + length (body r) in
  if (bol r && negb (pos =? 0)) || negb (starts_with (body r) (drop pos s))
     || (eol r && negb (at_end s e)) || (adv && (e =? pos))
  then None else Some e.

(** The text a replacement template stands for when the pattern has no
    group.  A character other than the backslash stands for itself; a
    backslash goes with the character after it: another backslash gives
    one backslash, one of the letters [a b f n r t v] a control character,
    a character that is neither a letter nor a digit stays escaped as it
    is.  Any other letter or digit, and a backslash at the end, give
    [None]: a bad escape such as [\q], on which the module raises, or a
    group reference or numeric escape, which the fragment leaves out. *)
Fixpoint unescape (repl : str) : option str :=
  match repl with
  | [] => Some []
  | 92%N :: repl' =>
      match repl' with
      | [] => None
      | c :: repl'' =>
          let rest := unescape repl'' in
          (if c =? 92 then (λ t, 92 :: t) <$> rest
           else if c =? 97 then (λ t, 7 :: t) <$> rest
           else if c =? 98 then (λ t, 8 :: t) <$> rest
           else if c =? 102 then (λ t, 12 :: t) <$> rest
           else if c =? 110 then (λ t, 10 :: t) <$> rest
           else if c =? 114 then (λ t, 13 :: t) <$> rest
           else if c =? 116 then (λ t, 9 :: t) <$> rest
           else if c =? 118 then (λ t, 11 :: t) <$> rest
           else if is_alnum c then None
           else (λ t, 92 :: c :: t) <$> rest)%N
      end
  | c :: repl' => (λ t, c :: t) <$> unescape repl'
  end.

Definition anchored_template_ok (r : anchored) (repl : str) : bool :=
  bool_decide (is_Some (unescape repl)).

Definition anchored_expand (r : anchored) (repl s : str) (b e : nat) : str :=
  default [] (unescape repl).

#[global] Instance anchored_engine : PatternEngine :=
  {| regex := anchored; compile := anchored_compile;
     match_at := anchored_match_at; template_ok := anchored_template_ok;
     expand := anchored_expand |}.

(** ** Example data *)

Definition tab : str := [9]%N.

Definition header : list str :=
  [lit "pattern"; lit "replacement"; lit "gloss"].

(** The stemmer built from a rule file with the given records below its
    header row and from one tab-delimited lexicon file with the given
    lines, over the two executable instances. *)
Definition load (records : list (list str)) (lines : list str)
  : result Stemmer :=
  __init__ (Some (header :: records)) None [lines] tab.

(** The compiled pattern [{{A}}]: a class marker anywhere in the token. *)
Definition marker_A : @regex anchored_engine :=
  {| bol := false; body := lit "{{A}}"; eol := false |}.

(** The compiled pattern [^un-]. *)
Definition prefix_un : @regex anchored_engine :=
  {| bol := true; body := lit "un-"; eol := false |}.

(** The word "cafe" with an acute accent on the "e": written with the
    precomposed letter U+00E9, and in its canonical decomposition, "e"
    followed by U+0301. *)
Definition cafe : str := [0x63; 0x61; 0x66; 0xE9]%N.
Definition cafe_nfd : str := [0x63; 0x61; 0x66; 0x65; 0x301]%N.

(** The two rules [^un-] of the order-sensitivity example. *)
Definition un_rules : list (list str) :=
  [[lit "^un-"; []; lit "neg"]; [lit "^un-"; lit "X"; lit "other"]].

(** The compiled pattern [s$], and a small table: the suffix rule [s$]
    and the prefix rule [^un-], both stripping, as records of a rule file
    and as loaded. *)
Definition suffix_s : @regex anchored_engine :=
  {| bol := false; body := lit "s"; eol := true |}.

Definition affix_records : list (list str) :=
  [[lit "s$"; []; lit "PL"]; [lit "^un-"; []; lit "neg"]].

Definition affix_rules : list (@rule anchored_engine) :=
  [(Suffix, suffix_s, [], [lit "PL"]); (Prefix, prefix_un, [], [lit "neg"])].

(** A stemmer over that table that knows the word "walk", and the table
    of the prefix rule alone. *)
Definition affix_stemmer : @Stemmer anchored_engine :=
  {| lexicon := {[ lit "walk" ]}; rules := affix_rules |}.

Definition un_table : list (@rule anchored_engine) :=
  [(Prefix, prefix_un, [], [lit "neg"])].

(** A stemmer over the prefix rule alone that knows the word "happy". *)
Definition un_stemmer : @Stemmer anchored_engine :=
  {| lexicon := {[ lit "happy" ]}; rules := un_table |}.

(** ** Notions used to state further properties *)

(** [sep.join(fields)] *)
Fixpoint join (sep : str) (fields : list str) : str :=
  match fields with
  | [] => []
  | f :: fields' =>
      match fields' with
      | [] => f
      | _ :: _ => f ++ sep ++ join sep fields'
      end
  end.

(** A rule that only strips an affix: its replacement template is
    accepted, and wherever its pattern is found in a string without line
    feed, the match is no class marker and is replaced by nothing, and it
    sits at the start of the string for a prefix rule, at its end for a
    suffix rule.  No [Delete] rule is of this kind.  (Before a final line
    feed [$] holds too, so no suffix pattern ends every string it is found
    in.) *)
Definition strips `{PatternEngine} (r : rule) : Prop :=
  let '(pos, a_re, b, _) := r in
  template_ok a_re b = true
  ∧ ∀ s b' e, 10%N ∉ s → search a_re s = Some (b', e) →
      class_re_match (slice s b' e) = false
      ∧ expand a_re b s b' e = []
      ∧ match pos with
        | Prefix => b' = 0
        | Suffix => e = length s
        | Delete => False
        end.

(** The most a rule can push onto the deques: its glosses in gloss mode,
    one affix otherwise. *)
Definition push_bound `{PatternEngine} (gloss : bool) (r : rule) : nat :=
  if gloss then length r.2 else 1.

(** A gloss carried by some rule of the table that is not a [Delete]
    rule. *)
Definition gloss_in_table `{PatternEngine} (table : list rule) (g : str)
  : Prop :=
  ∃ pos a_re b gl, (pos, a_re, b, gl) ∈ table ∧ pos ≠ Delete ∧ g ∈ gl.

(** A rule whose replacement template is accepted and for which replacing
    every match and replacing the first one come to the same. *)
Definition single_shot `{PatternEngine} (r : rule) : Prop :=
  let '(_, a_re, b, _) := r in
  template_ok a_re b = true
  ∧ ∀ s, substitute a_re b s 0 = substitute a_re b s 1.

(** Whether the pattern engine accepts the replacement template of a
    rule. *)
Definition accepted `{PatternEngine} (r : rule) : bool :=
  template_ok r.1.1.2 r.1.2.


(** * Properties *)

(** ** Deques and strings *)

Lemma extendleft_reverse {A : Type} (d items : list A) :
  extendleft d items = reverse items ++ d.
Proof.
  revert d. induction items as [|x items IH]; intros d; simpl.
  - reflexivity.
  - rewrite IH, reverse_cons, <- app_assoc. reflexivity.
Qed.

Lemma split_scan_nonempty (sep s cur : str) (skip : nat) :
  ∃ field fields, split_scan sep s cur skip = field :: fields.
Proof.
  revert cur skip. induction s as [|c s IH]; intros cur skip; simpl.
  - eauto.
  - destruct skip as [|k]; [|apply IH].
    destruct (starts_with sep (c :: s)); [eauto | apply IH].
Qed.

Lemma split_item0 (s sep : str) :
  sep ≠ [] → (records ← split s sep; item0 records) = Ok (first_field sep s).
Proof.
  intros Hsep. unfold split, first_field.
  destruct sep as [|c sep]; [done|]. simpl.
  destruct (split_scan_nonempty (c :: sep) s [] 0) as (f & fs & ->).
  reflexivity.
Qed.

Lemma for_each_cons {A S : Type} (body : S → A → result S) (x : A)
    (xs : list A) (acc : S) :
  for_each body (x :: xs) acc = (acc' ← body acc x; for_each body xs acc').
Proof. reflexivity. Qed.

(** ** The lexicon loader never raises on a non-empty delimiter *)

Lemma read_lex_line_ok (delimiter line : str) (lexicon : gset (list N)) :
  delimiter ≠ [] →
  read_lex_line delimiter lexicon line = Ok (lex_line delimiter lexicon line).
Proof.
  intros Hd. unfold read_lex_line, lex_line.
  pose proof (split_item0 (strip line) delimiter Hd) as Hs.
  destruct (split (strip line) delimiter) as [records|e]; [|done].
  simpl in *. destruct (item0 records) as [r0|e]; [|done].
  simpl. by injection Hs as ->.
Qed.

Lemma read_lex_lines (delimiter : str) (f : list str) (lexicon : gset (list N)) :
  delimiter ≠ [] →
  for_each (read_lex_line delimiter) f lexicon
  = Ok (foldl (lex_line delimiter) lexicon f).
Proof.
  intros Hd. revert lexicon. induction f as [|line f IH]; intros lexicon.
  - reflexivity.
  - rewrite for_each_cons, read_lex_line_ok by done. apply IH.
Qed.

Lemma read_lex_ok (delimiter : str) (lex_fns : list (list str)) :
  delimiter ≠ [] →
  _read_lex lex_fns delimiter
  = Ok (foldl (λ lexicon f, foldl (lex_line delimiter) lexicon f) ∅ lex_fns).
Proof.
  intros Hd. unfold _read_lex. generalize (∅ : gset (list N)).
  induction lex_fns as [|f fs IH]; intros lexicon.
  - reflexivity.
  - rewrite for_each_cons. cbv beta.
    rewrite (read_lex_lines delimiter f lexicon Hd). apply IH.
Qed.

Lemma foldl_lex_line (delimiter e : str) (f : list str) (lexicon : gset (list N)) :
  e ∈ foldl (lex_line delimiter) lexicon f
  ↔ e ∈ lexicon ∨ ∃ line, line ∈ f ∧ e = first_field delimiter (strip line).
Proof.
  revert lexicon. induction f as [|line f IH]; intros lexicon; simpl.
  - split; [auto|]. intros [?|(l & Hl & _)]; [done|]. by apply elem_of_nil in Hl.
  - rewrite IH. unfold lex_line. rewrite elem_of_union, elem_of_singleton.
    split.
    + intros [[->|?]|(l & Hl & ->)]; [right|by left|right].
      * exists line. split; [left|done].
      * exists l. split; [by right|done].
    + intros [?|(l & Hl & ->)]; [by left; right|].
      apply elem_of_cons in Hl as [->|Hl]; [by left; left|].
      right. by exists l.
Qed.

Lemma foldl_lex_files (delimiter e : str) (lex_fns : list (list str))
    (lexicon : gset (list N)) :
  e ∈ foldl (λ lexicon f, foldl (lex_line delimiter) lexicon f) lexicon lex_fns
  ↔ e ∈ lexicon
    ∨ ∃ f line, f ∈ lex_fns ∧ line ∈ f ∧ e = first_field delimiter (strip line).
Proof.
  revert lexicon. induction lex_fns as [|f fs IH]; intros lexicon; simpl.
  - split; [auto|]. intros [?|(f & l & Hf & _)]; [done|]. by apply elem_of_nil in Hf.
  - rewrite IH, foldl_lex_line. split.
    + intros [[?|(l & Hl & ->)]|(f' & l & Hf & Hl & ->)].
      * by left.
      * right. exists f, l. split; [left|done].
      * right. exists f', l. split; [by right|done].
    + intros [?|(f' & l & Hf & Hl & ->)]; [by left; left|].
      apply elem_of_cons in Hf as [->|Hf].
      * left. right. by exists l.
      * right. by exists f', l.
Qed.

(** ** The logged loops agree with the plain ones *)

Lemma last_seq_ge (a n j : nat) : last (seq a n) = Some j → a ≤ j.
Proof.
  intros Hl. apply last_Some_elem_of, elem_of_seq in Hl. lia.
Qed.

Section Loops.
Context `{Unicode} `{PatternEngine}.

(** The halting condition of a run, carried over the rule before it. *)
Lemma halts_on_cons (lexicon : gset (list N)) (r : rule) (rules : list rule)
    (i : nat) (tried : list nat) (token : result str) (h : halt) :
  tried = seq (S i) (length tried) →
  halts_on lexicon rules (S i) tried token h →
  halts_on lexicon (r :: rules) i (i :: tried) token h.
Proof.
  intros Hseq. unfold halts_on. destruct h, token as [t|e]; simpl; try done.
  - intros [? ?]. split; [done|lia].
  - lia.
  - intros (-> & Hlen & j & r' & Hlast & Hr' & Hbad).
    split; [done|]. split; [lia|]. exists j, r'.
    assert (S i ≤ j) as Hj by (rewrite Hseq in Hlast; by eapply last_seq_ge).
    split; [|split; [|done]].
    + destruct tried; [done|]. by rewrite last_cons_cons.
    + replace (j - i) with (S (j - S i)) by lia. done.
Qed.

Lemma halts_on_raise (lexicon : gset (list N)) (r : rule) (rules : list rule)
    (i : nat) :
  template_ok r.1.1.2 r.1.2 = false →
  halts_on lexicon (r :: rules) i [i] (Raise ReError) Raised.
Proof.
  intros Hbad. simpl. split; [done|]. split; [lia|]. exists i, r.
  by rewrite Nat.sub_diag.
Qed.

Lemma stem_trace_spec (lexicon : gset (list N)) (rules : list rule) (i : nat)
    (token : str) :
  ∃ l, stem_trace lexicon rules i token = (stem_loop lexicon rules token, l)
    ∧ substituted l = seq i (length (substituted l))
    ∧ halts_on lexicon rules i (substituted l)
        (stem_loop lexicon rules token) (halted l).
Proof.
  revert i token.
  induction rules as [|[[[pos a_re] b] gl] rules IH]; intros i token; simpl.
  - eexists. split; [reflexivity|]. simpl. auto.
  - case_bool_decide as Hin.
    + eexists. split; [reflexivity|]. simpl. split; [done|]. split; [done|lia].
    + unfold sub. destruct (template_ok a_re b) eqn:Hok; simpl.
      * destruct (IH (S i) (substitute a_re b token 0))
          as (l & -> & Hseq & Hhalt).
        eexists. split; [reflexivity|]. simpl. split.
        -- by rewrite <- Hseq.
        -- by apply halts_on_cons.
      * eexists. split; [reflexivity|]. split; [done|].
        by apply (halts_on_raise lexicon (pos, a_re, b, gl)).
Qed.

Lemma record_evidence_pushed (gloss : bool) (pos : position) (gl : list str)
    (m : str) (prefixes suffixes : list str) :
  let l := {| halted := Exhausted; searched := []; substituted := [];
              pushes := pushed gloss pos gl m |} in
  record_evidence gloss pos gl m prefixes suffixes
  = (prefixes ++ pushes_at Prefix l,
     reverse (pushes_at Suffix l) ++ suffixes).
Proof.
  unfold record_evidence, pushed, pushes_at. simpl.
  destruct (class_re_match m); simpl.
  { by rewrite app_nil_r. }
  destruct gloss, pos; simpl;
    rewrite ?app_nil_r, ?extendleft_reverse; reflexivity.
Qed.

Lemma pushes_at_app (p : position) (l : log) (es : list (position * list str)) :
  pushes_at p (log_push es l)
  = pushes_at p {| halted := Exhausted; searched := []; substituted := [];
                   pushes := es |} ++ pushes_at p l.
Proof.
  unfold pushes_at. simpl. apply bind_app.
Qed.

Lemma pushes_at_search (p : position) (i : nat) (l : log) :
  pushes_at p (log_search i l) = pushes_at p l.
Proof. reflexivity. Qed.

Lemma pushes_at_sub (p : position) (i : nat) (l : log) :
  pushes_at p (log_sub i l) = pushes_at p l.
Proof. reflexivity. Qed.

Lemma _parse_trace_spec (lexicon : gset (list N)) (gloss : bool)
    (rules : list rule) (i : nat) (prefixes : list str) (token : str)
    (suffixes : list str) :
  ∃ l, _parse_trace lexicon gloss rules i prefixes token suffixes
       = (_parse_loop lexicon gloss rules prefixes token suffixes, l)
    ∧ searched l = seq i (length (searched l))
    ∧ substituted l `sublist_of` searched l
    ∧ halts_on lexicon rules i (searched l)
        ((λ x, x.1.2) <$> _parse_loop lexicon gloss rules prefixes token suffixes)
        (halted l)
    ∧ deques_are prefixes suffixes l
        (_parse_loop lexicon gloss rules prefixes token suffixes).
Proof.
  revert i prefixes token suffixes.
  induction rules as [|[[[pos a_re] b] gl] rules IH];
    intros i prefixes token suffixes; simpl.
  - eexists. split; [reflexivity|]. simpl.
    rewrite app_nil_r. repeat split; done.
  - case_bool_decide as Hin.
    { eexists. split; [reflexivity|]. simpl. rewrite app_nil_r.
      repeat split; try done. lia. }
    destruct (search a_re token) as [mt|].
    + rewrite record_evidence_pushed. cbv zeta.
      set (p := pushed gloss pos gl (group0 token mt)).
      unfold sub. destruct (template_ok a_re b) eqn:Hok; simpl.
      * match goal with
        | |- context [_parse_trace _ _ _ _ ?ps ?t ?ss] =>
            destruct (IH (S i) ps t ss) as (l & -> & Hseq & Hsub & Hhalt & Hd)
        end.
        eexists. split; [reflexivity|].
        split; [simpl; by rewrite <- Hseq|].
        split; [by constructor|].
        split; [by apply halts_on_cons|].
        unfold deques_are in *.
        destruct (_parse_loop _ _ _ _ _ _) as [[[p' t'] s']|e]; [|done].
        rewrite !pushes_at_search, !pushes_at_sub, !pushes_at_app.
        destruct Hd as [-> ->].
        by rewrite reverse_app, <- !app_assoc.
      * eexists. split; [reflexivity|]. split; [done|].
        split; [done|]. split; [|done].
        by apply (halts_on_raise lexicon (pos, a_re, b, gl)).
    + destruct (IH (S i) prefixes token suffixes)
        as (l & -> & Hseq & Hsub & Hhalt & Hd).
      eexists. split; [reflexivity|].
      split; [simpl; by rewrite <- Hseq|].
      split; [by constructor|].
      split; [by apply halts_on_cons|].
      unfold deques_are in *.
      by destruct (_parse_loop _ _ _ _ _ _) as [[[p' t'] s']|e].
Qed.
End Loops.

(** ** Substitution: every match, or the first one *)

Section RegexFacts.
Context `{PatternEngine}.

(** Which matches [sub] replaces for a given [count]. *)
Lemma sub_loop_spans (r : regex) (repl s : str) (i pos : nat) (adv : bool)
    (count : option nat) (fuel : nat) :
  sub_loop r repl s i pos adv count fuel
  = replace_spans r repl s i
      (from_option (λ n, take n) id count (matches_from r s pos adv fuel)).
Proof.
  revert i pos adv count.
  induction fuel as [|fuel IH]; intros i pos adv count.
  - destruct count as [[|n]|]; reflexivity.
  - destruct count as [[|n]|]; simpl.
    + reflexivity.
    + destruct (search_from r s pos adv) as [[b e]|]; [|reflexivity].
      simpl. by rewrite IH.
    + destruct (search_from r s pos adv) as [[b e]|]; [|reflexivity].
      simpl. by rewrite IH.
Qed.

Lemma sub_all (r : regex) (repl s : str) :
  substitute r repl s 0 = replace_spans r repl s 0 (finditer r s).
Proof. unfold substitute. simpl. apply sub_loop_spans. Qed.

Lemma sub_first (r : regex) (repl s : str) :
  substitute r repl s 1
  = match search r s with
    | Some (b, e) => take b s ++ expand r repl s b e ++ drop e s
    | None => s
    end.
Proof.
  unfold substitute, sub_fuel, search. simpl decide. cbv iota.
  replace (2 * length s + 2) with (S (2 * length s + 1)) by lia. simpl.
  destruct (search_from r s 0 false) as [[b e]|]; [|reflexivity].
  unfold slice. rewrite Nat.sub_0_r.
  destruct (length s + (length s + 0) + 1); reflexivity.
Qed.

Lemma sub_first_spans (r : regex) (repl s : str) :
  substitute r repl s 1 = replace_spans r repl s 0 (take 1 (finditer r s)).
Proof. unfold substitute. simpl decide. cbv iota. apply sub_loop_spans. Qed.

(** Where [scan] finds its match. *)
Lemma scan_Some (r : regex) (s : str) (pos : nat) (adv : bool) (n b e : nat) :
  scan r s pos adv n = Some (b, e) →
  pos ≤ b ≤ pos + n
  ∧ match_at r s b (adv && bool_decide (b = pos)) = Some e.
Proof.
  revert pos adv. induction n as [|n IH]; intros pos adv; simpl.
  - destruct (match_at r s pos adv) as [e'|] eqn:Hm; [|done].
    intros [= <- <-]. rewrite bool_decide_eq_true_2 by done.
    rewrite andb_true_r. split; [lia|done].
  - destruct (match_at r s pos adv) as [e'|] eqn:Hm.
    + intros [= <- <-]. rewrite bool_decide_eq_true_2 by done.
      rewrite andb_true_r. split; [lia|done].
    + intros Hs. apply IH in Hs as [Hb Hm']. split; [lia|].
      rewrite bool_decide_eq_false_2 by lia.
      by rewrite andb_false_r.
Qed.

(** The fuel of [sub] and [finditer] never runs out: with more of it
    they find the same matches. *)
Lemma matches_from_fuel (Hwb : well_behaved) (r : regex) (s : str)
    (pos : nat) (adv : bool) (fuel k : nat) :
  pos ≤ length s →
  2 * (length s - pos) + (if adv then 0 else 1) < fuel →
  matches_from r s pos adv (fuel + k) = matches_from r s pos adv fuel.
Proof.
  revert pos adv. induction fuel as [|fuel IH]; intros pos adv Hpos Hfuel.
  - lia.
  - simpl. unfold search_from.
    destruct (scan r s pos adv (length s - pos)) as [[b e]|] eqn:Hs;
      [|reflexivity].
    apply scan_Some in Hs as [Hb Hm].
    apply Hwb in Hm as [He Hadv]; [|lia].
    f_equal. apply IH; [lia|].
    destruct (Nat.eqb_spec e b) as [->|Hne]; [|lia].
    destruct adv; simpl in *.
    + case_bool_decide; [|lia]. specialize (Hadv eq_refl). lia.
    + lia.
Qed.

(** The matches [sub] and [finditer] visit are matches of the pattern,
    in order and without overlap. *)
Lemma matches_from_chained (Hwb : well_behaved) (r : regex) (s : str)
    (pos : nat) (adv : bool) (fuel : nat) :
  pos ≤ length s → chained r s pos (matches_from r s pos adv fuel).
Proof.
  revert pos adv. induction fuel as [|fuel IH]; intros pos adv Hpos; simpl.
  - done.
  - unfold search_from.
    destruct (scan r s pos adv (length s - pos)) as [[b e]|] eqn:Hs; [|done].
    apply scan_Some in Hs as [Hb Hm].
    pose proof Hm as Hm'. apply Hwb in Hm' as [He _]; [|lia].
    simpl. repeat split; [lia..| |].
    + eauto.
    + apply IH. lia.
Qed.

Lemma finditer_chained (Hwb : well_behaved) (r : regex) (s : str) :
  chained r s 0 (finditer r s).
Proof. apply matches_from_chained; [done|lia]. Qed.

Lemma finditer_complete (Hwb : well_behaved) (r : regex) (s : str) (k : nat) :
  matches_from r s 0 false (sub_fuel s + k) = finditer r s.
Proof.
  unfold finditer. apply matches_from_fuel; [done|lia|].
  unfold sub_fuel. simpl. lia.
Qed.
End RegexFacts.

Lemma starts_with_length (p s : str) :
  starts_with p s = true → length p ≤ length s.
Proof.
  revert s. induction p as [|a p IH]; intros [|b s]; simpl; try done; try lia.
  intros [_ Hp]%andb_true_iff. apply IH in Hp. lia.
Qed.

Lemma anchored_well_behaved : well_behaved.
Proof.
  intros r s pos adv e Hpos. simpl. unfold anchored_match_at.
  destruct (_ || _) eqn:Hc; [done|]. intros [= <-].
  apply orb_false_iff in Hc as [Hc Hadv].
  apply orb_false_iff in Hc as [Hc _].
  apply orb_false_iff in Hc as [_ Hst].
  apply negb_false_iff, starts_with_length in Hst.
  rewrite length_drop in Hst.
  split; [lia|]. intros ->. simpl in Hadv.
  apply Nat.eqb_neq in Hadv. lia.
Qed.

(** ** The rewrite loop *)

Lemma accepted_lookup `{PatternEngine} (rules : list rule) (i : nat) (r : rule) :
  forallb accepted rules = true → rules !! i = Some r →
  template_ok r.1.1.2 r.1.2 = true.
Proof.
  revert i. induction rules as [|r' rules IH]; intros i Hall Hr; [done|].
  simpl in Hall. apply andb_true_iff in Hall as [Hr' Hall].
  destruct i as [|i]; simpl in Hr.
  - by injection Hr as <-.
  - by apply (IH i).
Qed.




(** C3.  Affix ordering.  With the rules [s$] then [ed$] and [walk] in
    the lexicon, [parse("walkeds")] is [walk, ed, s]; and in general
    [parse] returns the prefix pushes in rule-application order, then the
    stem, then the suffix pushes in the reverse of rule-application
    order. *)
Theorem parse_affix_order :
  (λ self, parse self (lit "walkeds") false)
    <$> load [[lit "s$"; []; lit "PL"]; [lit "ed$"; []; lit "PST"]] [lit "walk"]
  = Ok (Ok [lit "walk"; lit "ed"; lit "s"])
  ∧ ∀ (U : Unicode) (E : PatternEngine) (self : Stemmer) (token : str)
      (gloss : bool),
      match _parse self token gloss with
      | Ok (prefixes, stem, suffixes) =>
          parse self token gloss = Ok (prefixes ++ [stem] ++ suffixes)
          ∧ prefixes = pushes_at Prefix (_parse_log self token gloss)
          ∧ suffixes
            = reverse (pushes_at Suffix (_parse_log self token gloss))
      | Raise e => parse self token gloss = Raise e
      end.
Proof.
  split; [vm_compute; reflexivity|].
  intros U E self token gloss. unfold parse, _parse_log, _parse.
  destruct (_parse_trace_spec (lexicon self) gloss (rules self) 0 []
              (normalize token) []) as (l & -> & _ & _ & _ & Hd).
  unfold deques_are in Hd.
  destruct (_parse_loop _ _ _ _ _ _) as [[[p t] s]|e]; simpl; [|done].
  destruct Hd as [-> ->]. rewrite app_nil_r.
  split; [|done]. by rewrite <- app_assoc.
Qed.



(** ** Lexicon membership *)

(** A token in canonical form that is in the lexicon is left alone,
    whatever the rules. *)
Lemma lexical_nfd_token_fixed `{Unicode} `{PatternEngine} (self : Stemmer)
    (token : str) (gloss : bool) :
  normalize token = token → token ∈ lexicon self →
  stem self token = Ok token ∧ parse self token gloss = Ok [token].
Proof.
  intros Hnfd Hin. unfold parse, _parse, stem. rewrite Hnfd.
  destruct (rules self) as [|[[[pos a_re] b] gl] rules']; simpl.
  - done.
  - by rewrite !bool_decide_eq_true_2.
Qed.

(** Once the token is in the lexicon no rule is tried. *)
Lemma stem_trace_lexical `{PatternEngine} (lexicon : gset (list N))
    (rules : list rule) (i : nat) (token : str) :
  token ∈ lexicon →
  stem_loop lexicon rules token = Ok token
  ∧ substituted (stem_trace lexicon rules i token).2 = [].
Proof.
  intros Hin. destruct rules as [|[[[pos a_re] b] gl] rules']; simpl.
  - done.
  - by rewrite !bool_decide_eq_true_2.
Qed.

(** C5.  Idempotence on lexical input, at the lexicon line [cafe]
    (written with the precomposed letter U+00E9) and the rule that
    rewrites a final U+00E9 to "e": the token [cafe] is in the lexicon,
    yet [stem] returns "cafe" without the accent and [parse] returns that
    stem followed by the suffix "e" + U+0301.  The lexicon keeps the line
    as read, while the token is normalised before the membership test. *)
Theorem lexical_token_rewritten :
  (λ self, (bool_decide (cafe ∈ lexicon self), stem self cafe,
            parse self cafe false))
    <$> load [[[0xE9; 36]%N; lit "e"; lit "STRESS"]] [cafe]
  = Ok (true, Ok (lit "cafe"), Ok [lit "cafe"; [0x65; 0x301]%N]).
Proof. vm_compute. reflexivity. Qed.

(** C1.  Unicode normalisation round trip, at the lexicon line [cafe]
    (precomposed U+00E9) and the token [cafe_nfd] ("e" + U+0301): the two
    are equal after canonical decomposition and differ as written, the
    entry is in the lexicon, and the membership test on the normalised
    token fails, so [stem] and [_parse] run to the end of the table; the
    same happens on the token written exactly as the entry.  With the
    entry stored in decomposed form the loop halts on both. *)
Theorem decomposed_token_not_matched :
  normalize cafe_nfd = normalize cafe
  ∧ cafe_nfd ≠ cafe
  ∧ (λ self, (bool_decide (cafe ∈ lexicon self),
              bool_decide (normalize cafe_nfd ∈ lexicon self),
              halted (stem_log self cafe_nfd),
              halted (_parse_log self cafe_nfd false),
              halted (stem_log self cafe)))
      <$> load [[lit "s$"; []; lit "PL"]] [cafe]
    = Ok (true, false, Exhausted, Exhausted, Exhausted)
  ∧ (λ self, (halted (stem_log self cafe_nfd), halted (stem_log self cafe)))
      <$> load [[lit "s$"; []; lit "PL"]] [cafe_nfd]
    = Ok (Matched, Matched).
Proof.
  split; [reflexivity|]. split; [discriminate|].
  split; vm_compute; reflexivity.
Qed.

(** In gloss mode a suffix rule leaves its glosses on the front of the
    suffix deque in reverse order. *)
Lemma suffix_gloss_push (gl : list str) (m : str) (prefixes suffixes : list str) :
  class_re_match m = false →
  record_evidence true Suffix gl m prefixes suffixes
  = (prefixes, reverse gl ++ suffixes).
Proof.
  intros Hm. unfold record_evidence. rewrite Hm.
  by rewrite extendleft_reverse.
Qed.

(** C2.  Gloss order of a suffix push, at the rules [s$] glossed [PL]
    and [ed$] glossed [PST.PFV] with [walk] in the lexicon: on "walkeds"
    the second rule finds the suffix deque holding [PL] and leaves it as
    [PFV, PST, PL], its own two glosses reversed, where the prefix deque
    would keep them as [PST, PFV]. *)
Theorem suffix_glosses_reversed :
  (λ self, ((λ x, x.2) <$> _parse self (lit "walkeds") true,
            gloss self (lit "walkeds")))
    <$> load [[lit "s$"; []; lit "PL"]; [lit "ed$"; []; lit "PST.PFV"]]
          [lit "walk"]
  = Ok (Ok [lit "PFV"; lit "PST"; lit "PL"],
        Ok [lit "walk"; lit "PFV"; lit "PST"; lit "PL"]).
Proof. vm_compute. reflexivity. Qed.

(** ** Order sensitivity *)

(** C6, as stated: with the two [^un-] rules and [happy] in the lexicon,
    [stem("unhappy")] is not "happy".  The pattern asks for the hyphen,
    neither rule matches, and the token comes back unchanged. *)
Lemma unhappy_not_stemmed :
  (λ self, stem self (lit "unhappy")) <$> load un_rules [lit "happy"]
  = Ok (Ok (lit "unhappy"))
  ∧ (λ self, stem self (lit "unhappy")) <$> load un_rules [lit "happy"]
    ≠ Ok (Ok (lit "happy")).
Proof. split; [vm_compute; reflexivity|]. vm_compute. discriminate. Qed.

(** C6, amended.  With the two [^un-] rules and [happy] in the lexicon,
    [stem("un-happy")] is "happy": the first rule's substitution runs,
    the loop then halts on the lexicon entry and the second rule is never
    applied.  In general, on a token that is in the lexicon the loop
    returns it at once and runs no substitution. *)
Theorem stem_stops_at_lexicon_entry :
  (λ self, (stem self (lit "un-happy"),
            substituted (stem_log self (lit "un-happy")),
            halted (stem_log self (lit "un-happy"))))
    <$> load un_rules [lit "happy"]
  = Ok (Ok (lit "happy"), [0], Matched)
  ∧ ∀ (E : PatternEngine) (lexicon : gset (list N)) (rules : list rule)
      (i : nat) (token : str),
      token ∈ lexicon →
      stem_loop lexicon rules token = Ok token
      ∧ substituted (stem_trace lexicon rules i token).2 = [].
Proof.
  split; [vm_compute; reflexivity|].
  intros E lexicon rules i token. apply stem_trace_lexical.
Qed.

Lemma stem_stops_at_lexicon_entry_witness :
  (lit "happy" ∈ ({[ lit "happy" ]} : gset (list N)))
  ∧ stem_loop {[ lit "happy" ]}
      [(Prefix, prefix_un, [], [lit "neg"]);
       (Prefix, prefix_un, lit "X", [lit "other"])] (lit "happy")
    = Ok (lit "happy")
  ∧ substituted
      (stem_trace {[ lit "happy" ]}
         [(Prefix, prefix_un, [], [lit "neg"]);
          (Prefix, prefix_un, lit "X", [lit "other"])] 0 (lit "happy")).2
    = [].
Proof.
  split; [by apply elem_of_singleton|].
  apply (proj2 stem_stops_at_lexicon_entry anchored_engine).
  by apply elem_of_singleton.
Defined.

(** ** Loading the lexicon *)

(** C7, as stated: a blank line is not ignored.  The file with the lines
    "walk", a newline and an empty line yields a lexicon of two entries,
    the empty string among them. *)
Lemma blank_line_adds_entry :
  (λ lexicon, (bool_decide ([] ∈ lexicon), bool_decide (lit "walk" ∈ lexicon),
               size lexicon))
    <$> _read_lex [[lit "walk"; [10]%N; []]] tab
  = Ok (true, true, 2).
Proof. vm_compute. reflexivity. Qed.

(** C7, amended.  With a non-empty delimiter the lexicon loader never
    raises, and no line is skipped: the lexicon holds exactly the first
    field of every stripped line, so an empty or blank line adds the empty
    string. *)
Theorem read_lex_total (lex_fns : list (list str)) (delimiter : str) :
  delimiter ≠ [] →
  ∃ lexicon, _read_lex lex_fns delimiter = Ok lexicon
    ∧ (∀ e, e ∈ lexicon
         ↔ ∃ f line, f ∈ lex_fns ∧ line ∈ f
             ∧ e = first_field delimiter (strip line))
    ∧ (∀ f line, f ∈ lex_fns → line ∈ f → strip line = [] → [] ∈ lexicon).
Proof.
  intros Hd. eexists. split; [by apply read_lex_ok|].
  assert (∀ e, e ∈ foldl (λ lexicon f, foldl (lex_line delimiter) lexicon f)
                     ∅ lex_fns
            ↔ ∃ f line, f ∈ lex_fns ∧ line ∈ f
                ∧ e = first_field delimiter (strip line)) as Hiff.
  { intros e. rewrite foldl_lex_files. split; [|by right].
    intros [Hin|?]; [|done]. by apply not_elem_of_empty in Hin. }
  split; [done|].
  intros f line Hf Hline Hblank. apply Hiff. exists f, line.
  rewrite Hblank. done.
Qed.

Lemma read_lex_total_witness :
  tab ≠ []
  ∧ ∃ lexicon, _read_lex [[lit "walk"; []]] tab = Ok lexicon
      ∧ (∀ e, e ∈ lexicon
           ↔ ∃ f line, f ∈ [[lit "walk"; []]] ∧ line ∈ f
               ∧ e = first_field tab (strip line))
      ∧ (∀ f line, f ∈ [[lit "walk"; []]] → line ∈ f → strip line = []
           → [] ∈ lexicon).
Proof.
  split; [discriminate|]. apply (read_lex_total [[lit "walk"; []]] tab).
  discriminate.
Defined.

(** ** Loading the rules *)

Section RuleLoader.
Context `{Unicode} `{PatternEngine}.

Lemma normalize_empty : normalize [] = [].
Proof. reflexivity. Qed.

Lemma classify_empty : classify [] = Raise IndexError.
Proof. reflexivity. Qed.

Lemma classify_anchorless (a : str) :
  a ≠ [] → anchorless a = true → classify a = Raise (MalformedRuleError a).
Proof.
  intros Hne Ha. unfold anchorless in Ha.
  apply andb_true_iff in Ha as [Ha Hlast].
  apply andb_true_iff in Ha as [Hclass Hhead].
  apply negb_true_iff, bool_decide_eq_false in Hclass, Hhead, Hlast.
  unfold classify. rewrite bool_decide_eq_false_2 by done.
  unfold item0. rewrite <- !head_lookup, head_reverse.
  destruct a as [|a0 a]; [done|]. simpl.
  rewrite bool_decide_eq_false_2 by (intros ->; done). simpl.
  destruct (last (a0 :: a)) as [al|] eqn:Hl.
  - simpl. rewrite bool_decide_eq_false_2 by (intros ->; done). done.
  - by apply last_None in Hl.
Qed.

(** Records that load leave the loop running, with their rules added. *)
Lemma read_rules_prefix (good more : list (list str)) (rules : list rule) :
  forallb (λ line, is_ok (read_rule line)) good = true →
  ∃ rules',
    for_each (λ rules line, r ← read_rule line; Ok (rules ++ [r]))
      (good ++ more) rules
    = for_each (λ rules line, r ← read_rule line; Ok (rules ++ [r]))
        more rules'.
Proof.
  revert rules. induction good as [|line good IH]; intros rules Hgood.
  - by exists rules.
  - simpl in Hgood. apply andb_true_iff in Hgood as [Hline Hgood].
    simpl. destruct (read_rule line) as [r|e]; [|done]. simpl.
    by apply IH.
Qed.

(** The first record that does not load decides the exception. *)
Lemma read_rules_first_failure (outside packaged : option (list (list str)))
    (hdr : list str) (good : list (list str)) (bad : list str)
    (rest : list (list str)) (e : exn) :
  resolve outside packaged = Ok (hdr :: good ++ bad :: rest) →
  forallb (λ line, is_ok (read_rule line)) good = true →
  read_rule bad = Raise e →
  _read_rules outside packaged = Raise e.
Proof.
  intros Hres Hgood Hbad. unfold _read_rules. rewrite Hres. simpl.
  destruct (read_rules_prefix good (bad :: rest) [] Hgood) as [rules' ->].
  simpl. by rewrite Hbad.
Qed.

Lemma init_rules_failure (outside packaged : option (list (list str)))
    (lex_fns : list (list str)) (delimiter : str) (e : exn) :
  delimiter ≠ [] →
  _read_rules outside packaged = Raise e →
  __init__ outside packaged lex_fns delimiter = Raise e.
Proof.
  intros Hd Hrules. unfold __init__.
  rewrite (read_lex_ok delimiter lex_fns Hd). simpl. by rewrite Hrules.
Qed.
End RuleLoader.

(** C8, as stated: a record without an anchor does not always end in
    [MalformedRuleError].  A record of two fields before it raises
    [ValueError] first, and an empty pattern raises [IndexError]. *)
Lemma anchorless_rule_other_error :
  load [[lit "s$"; []]; [lit "happy"; []; lit "x"]] [] = Raise ValueError
  ∧ anchorless [] = true
  ∧ load [[[]; []; lit "x"]] [] = Raise IndexError.
Proof. repeat split; vm_compute; reflexivity. Qed.

(** C8, amended.  Malformed rule rejection.  If the pattern of a record
    below the header, once normalised, is non-empty and has no anchor, and
    every record between the header and it loads, then [_read_rules]
    raises [MalformedRuleError] for that pattern and so does the
    constructor: no rule table and no stemmer is produced. *)
Theorem anchorless_rule_rejected `{Unicode} `{PatternEngine}
    (outside packaged : option (list (list str))) (lex_fns : list (list str))
    (delimiter : str) (hdr : list str) (good : list (list str))
    (a b glosses : str) (rest : list (list str)) :
  delimiter ≠ [] →
  resolve outside packaged = Ok (hdr :: good ++ [a; b; glosses] :: rest) →
  forallb (λ line, is_ok (read_rule line)) good = true →
  normalize a ≠ [] →
  anchorless (normalize a) = true →
  _read_rules outside packaged = Raise (MalformedRuleError (normalize a))
  ∧ __init__ outside packaged lex_fns delimiter
    = Raise (MalformedRuleError (normalize a)).
Proof.
  intros Hd Hres Hgood Hne Ha.
  assert (_read_rules outside packaged
          = Raise (MalformedRuleError (normalize a))) as Hr.
  { apply (read_rules_first_failure _ _ hdr good [a; b; glosses] rest);
      [done..|].
    unfold read_rule. by rewrite classify_anchorless. }
  split; [done|]. by apply init_rules_failure.
Qed.

Lemma anchorless_rule_rejected_witness :
  tab ≠ []
  ∧ _read_rules
      (Some [header; [lit "s$"; []; lit "PL"]; [lit "happy"; []; lit "x"];
             [lit "ed$"; []; lit "PST"]]) None
    = Raise (MalformedRuleError (normalize (lit "happy")))
  ∧ __init__
      (Some [header; [lit "s$"; []; lit "PL"]; [lit "happy"; []; lit "x"];
             [lit "ed$"; []; lit "PST"]]) None [[lit "walk"]] tab
    = Raise (MalformedRuleError (normalize (lit "happy"))).
Proof.
  split; [discriminate|].
  apply (@anchorless_rule_rejected latin_excerpt anchored_engine
           (Some [header; [lit "s$"; []; lit "PL"]; [lit "happy"; []; lit "x"];
                  [lit "ed$"; []; lit "PST"]]) None [[lit "walk"]] tab
           header [[lit "s$"; []; lit "PL"]] (lit "happy") [] (lit "x")
           [[lit "ed$"; []; lit "PST"]]).
  - discriminate.
  - reflexivity.
  - vm_compute. reflexivity.
  - vm_compute. discriminate.
  - vm_compute. reflexivity.
Defined.

(** C10, as stated: an empty pattern does not always end in
    [IndexError].  An anchorless pattern before it raises
    [MalformedRuleError] first. *)
Lemma empty_pattern_other_error :
  load [[lit "happy"; []; lit "x"]; [[]; []; lit "y"]] []
  = Raise (MalformedRuleError (lit "happy")).
Proof. vm_compute. reflexivity. Qed.

(** C10, amended.  If a record below the header has an empty pattern and
    every record between the header and it loads, then [_read_rules]
    raises [IndexError], not [MalformedRuleError], and so does the
    constructor: the anchor test indexes the empty string. *)
Theorem empty_pattern_index_error `{Unicode} `{PatternEngine}
    (outside packaged : option (list (list str))) (lex_fns : list (list str))
    (delimiter : str) (hdr : list str) (good : list (list str))
    (b glosses : str) (rest : list (list str)) :
  delimiter ≠ [] →
  resolve outside packaged = Ok (hdr :: good ++ [[]; b; glosses] :: rest) →
  forallb (λ line, is_ok (read_rule line)) good = true →
  classify (normalize []) = Raise IndexError
  ∧ _read_rules outside packaged = Raise IndexError
  ∧ __init__ outside packaged lex_fns delimiter = Raise IndexError.
Proof.
  intros Hd Hres Hgood. split; [reflexivity|].
  assert (_read_rules outside packaged = Raise IndexError) as Hr.
  { by apply (read_rules_first_failure _ _ hdr good [[]; b; glosses] rest). }
  split; [done|]. by apply init_rules_failure.
Qed.

Lemma empty_pattern_index_error_witness :
  tab ≠ []
  ∧ classify (normalize []) = Raise IndexError
  ∧ _read_rules
      (Some [header; [lit "s$"; []; lit "PL"]; [[]; []; lit "x"]]) None
    = Raise IndexError
  ∧ __init__
      (Some [header; [lit "s$"; []; lit "PL"]; [[]; []; lit "x"]]) None
      [[lit "walk"]] tab
    = Raise IndexError.
Proof.
  split; [discriminate|].
  apply (@empty_pattern_index_error latin_excerpt anchored_engine
           (Some [header; [lit "s$"; []; lit "PL"]; [[]; []; lit "x"]]) None
           [[lit "walk"]] tab header [[lit "s$"; []; lit "PL"]] [] (lit "x") []).
  - discriminate.
  - reflexivity.
  - vm_compute. reflexivity.
Defined.

(** * Further properties of the loaders *)

(** ** [str.split] and [str.join] *)

Lemma split_scan_skip (sep s cur : str) (k : nat) :
  split_scan sep s cur k = split_scan sep (drop k s) cur 0.
Proof.
  revert k. induction s as [|c s IH]; intros [|k]; simpl; try done; apply IH.
Qed.

Lemma starts_with_app (p s : str) :
  starts_with p s = true → s = p ++ drop (length p) s.
Proof.
  revert s. induction p as [|a p IH]; intros [|b s]; simpl; try done.
  intros [Hab Hp]%andb_true_iff. apply N.eqb_eq in Hab as ->.
  f_equal. by apply IH.
Qed.

Lemma join_split_scan (sep : str) (n : nat) (s cur : str) :
  sep ≠ [] → length s ≤ n →
  join sep (split_scan sep s cur 0) = reverse cur ++ s.
Proof.
  intros Hsep. revert s cur.
  induction n as [|n IH]; intros [|c s] cur Hn; simpl in *;
    try (by rewrite app_nil_r); try lia.
  destruct (starts_with sep (c :: s)) eqn:Hst.
  - rewrite split_scan_skip.
    destruct (split_scan_nonempty sep (drop (length sep - 1) s) [] 0)
      as (f & fs & Hf).
    pose proof (IH (drop (length sep - 1) s) []) as Hrest.
    rewrite Hf in *.
    change (join sep (reverse cur :: f :: fs))
      with (reverse cur ++ sep ++ join sep (f :: fs)).
    rewrite Hrest by (rewrite length_drop; lia).
    apply starts_with_app in Hst.
    destruct sep as [|x sep]; [done|]. simpl in *. rewrite Nat.sub_0_r.
    injection Hst as -> Hs. by rewrite <- Hs.
  - rewrite IH by lia. rewrite reverse_cons, <- app_assoc. done.
Qed.

(** Splitting loses nothing: joining the fields gives the string back. *)
Lemma join_split (s sep : str) (fields : list str) :
  split s sep = Ok fields → join sep fields = s.
Proof.
  unfold split. destruct sep as [|x sep]; [done|]. intros [= <-].
  by apply (join_split_scan (x :: sep) (length s)).
Qed.

(** With a one-character separator no field contains it. *)
Lemma split_scan_single_free (c : N) (s cur : str) :
  c ∉ cur → Forall (λ f, c ∉ f) (split_scan [c] s cur 0).
Proof.
  revert cur. induction s as [|x s IH]; intros cur Hcur; simpl.
  - constructor; [|done]. by rewrite elem_of_reverse.
  - rewrite andb_true_r. destruct (N.eqb_spec c x) as [->|Hne].
    + constructor; [by rewrite elem_of_reverse|].
      apply IH. apply not_elem_of_nil.
    + apply IH. rewrite elem_of_cons. intros [?|?]; done.
Qed.

(** The first field is the start of the string. *)
Lemma head_split_scan (sep s cur : str) :
  ∃ p, head (split_scan sep s cur 0) = Some (reverse cur ++ p)
       ∧ p `prefix_of` s.
Proof.
  revert cur. induction s as [|c s IH]; intros cur; simpl.
  - exists []. by rewrite app_nil_r.
  - destruct (starts_with sep (c :: s)).
    + exists []. rewrite app_nil_r. split; [done|]. apply prefix_nil.
    + destruct (IH (c :: cur)) as (p & -> & Hp).
      exists (c :: p). rewrite reverse_cons, <- app_assoc.
      split; [done|]. by apply prefix_cons.
Qed.

Lemma first_field_prefix (sep s : str) : first_field sep s `prefix_of` s.
Proof.
  unfold first_field. destruct (head_split_scan sep s []) as (p & -> & Hp).
  done.
Qed.

Lemma first_field_single_free (c : N) (s : str) : c ∉ first_field [c] s.
Proof.
  unfold first_field.
  pose proof (split_scan_single_free c s [] (not_elem_of_nil c)) as Hall.
  destruct (split_scan [c] s [] 0) as [|f fs]; simpl.
  - apply not_elem_of_nil.
  - by apply Forall_cons in Hall as [? _].
Qed.

(** ** [str.strip] *)

Lemma lstrip_suffix (s : str) : lstrip s `suffix_of` s.
Proof.
  induction s as [|c s IH]; simpl; [done|].
  destruct (is_space c); [by apply suffix_cons_r|done].
Qed.

Lemma lstrip_head (s : str) (c : N) :
  head (lstrip s) = Some c → is_space c = false.
Proof.
  induction s as [|x s IH]; simpl; [done|].
  destruct (is_space x) eqn:Hx; [done|]. simpl. by intros [= <-].
Qed.

Lemma strip_head (s : str) (c : N) :
  head (strip s) = Some c → is_space c = false.
Proof.
  unfold strip. rewrite head_reverse. intros Hlast.
  destruct (lstrip_suffix (reverse (lstrip s))) as [k Hk].
  assert (last (reverse (lstrip s)) = Some c) as Hl.
  { rewrite Hk. rewrite last_app, Hlast. done. }
  rewrite last_reverse in Hl. by apply lstrip_head in Hl.
Qed.

(** ** The lexicon loader *)

Lemma read_lex_entries (lex_fns : list (list str)) (delimiter : str) :
  delimiter ≠ [] →
  ∃ lexicon, _read_lex lex_fns delimiter = Ok lexicon
    ∧ ∀ e, e ∈ lexicon
        ↔ ∃ f line, f ∈ lex_fns ∧ line ∈ f
            ∧ e = first_field delimiter (strip line).
Proof.
  intros Hd. eexists. split; [by apply read_lex_ok|].
  intros e. rewrite foldl_lex_files. split; [|by right].
  intros [Hin|?]; [|done]. by apply not_elem_of_empty in Hin.
Qed.

(** X1.  Lexicon files add up: with a non-empty delimiter, loading two
    lists of files one after the other gives the union of what each list
    gives, in either order. *)
Theorem read_lex_union (fs1 fs2 : list (list str)) (delimiter : str) :
  delimiter ≠ [] →
  ∃ l1 l2, _read_lex fs1 delimiter = Ok l1
    ∧ _read_lex fs2 delimiter = Ok l2
    ∧ _read_lex (fs1 ++ fs2) delimiter = Ok (l1 ∪ l2)
    ∧ _read_lex (fs2 ++ fs1) delimiter = Ok (l1 ∪ l2).
Proof.
  intros Hd. rewrite !read_lex_ok by done. eexists _, _.
  split; [reflexivity|]. split; [reflexivity|].
  split; f_equal; apply set_eq; intros e;
    rewrite elem_of_union, !foldl_lex_files; setoid_rewrite elem_of_app;
    split.
  - intros [Hin|(f & l & [Hf|Hf] & Hl & ->)].
    + by apply not_elem_of_empty in Hin.
    + left. right. by exists f, l.
    + right. right. by exists f, l.
  - intros [[Hin|(f & l & Hf & Hl & ->)]|[Hin|(f & l & Hf & Hl & ->)]];
      try (by apply not_elem_of_empty in Hin); right; exists f, l; auto.
  - intros [Hin|(f & l & [Hf|Hf] & Hl & ->)].
    + by apply not_elem_of_empty in Hin.
    + right. right. by exists f, l.
    + left. right. by exists f, l.
  - intros [[Hin|(f & l & Hf & Hl & ->)]|[Hin|(f & l & Hf & Hl & ->)]];
      try (by apply not_elem_of_empty in Hin); right; exists f, l; auto.
Qed.

Lemma read_lex_union_witness :
  tab ≠ []
  ∧ ∃ l1 l2, _read_lex [[lit "walk"]] tab = Ok l1
      ∧ _read_lex [[lit "happy"; lit "walk"]] tab = Ok l2
      ∧ _read_lex ([[lit "walk"]] ++ [[lit "happy"; lit "walk"]]) tab
        = Ok (l1 ∪ l2)
      ∧ _read_lex ([[lit "happy"; lit "walk"]] ++ [[lit "walk"]]) tab
        = Ok (l1 ∪ l2).
Proof.
  split; [discriminate|].
  apply (read_lex_union [[lit "walk"]] [[lit "happy"; lit "walk"]] tab).
  discriminate.
Defined.

Lemma first_field_nonempty (c x : N) (s : str) :
  c ≠ x → first_field [c] (x :: s) ≠ [].
Proof.
  intros Hne. unfold first_field. simpl.
  rewrite (proj2 (N.eqb_neq c x) Hne). simpl.
  destruct (head_split_scan [c] s [x]) as (p & -> & _). done.
Qed.

(** X2.  The shape of a lexicon entry under a one-character delimiter:
    it is the start of some stripped line, it does not contain the
    delimiter and does not begin with white space; and when the delimiter
    is itself white space, as the default tab is, the entry is empty only
    for a blank line. *)
Theorem lexicon_entry_shape (lex_fns : list (list str)) (c : N)
    (lexicon : gset (list N)) (e : str) :
  _read_lex lex_fns [c] = Ok lexicon →
  e ∈ lexicon →
  ∃ f line, f ∈ lex_fns ∧ line ∈ f
    ∧ e `prefix_of` strip line
    ∧ (c ∉ e)
    ∧ (∀ x, head e = Some x → is_space x = false)
    ∧ (is_space c = true → e = [] → strip line = []).
Proof.
  intros Hread Hin.
  destruct (read_lex_entries lex_fns [c]) as (lexicon' & Hread' & Hiff);
    [done|].
  rewrite Hread in Hread'. injection Hread' as <-.
  apply Hiff in Hin as (f & line & Hf & Hline & ->).
  exists f, line. split; [done|]. split; [done|].
  split; [apply first_field_prefix|].
  split; [apply first_field_single_free|].
  split.
  - intros x Hx. destruct (first_field_prefix [c] (strip line)) as [k Hk].
    apply (strip_head line x). rewrite Hk.
    destruct (first_field [c] (strip line)); [done|]. done.
  - intros Hc Hempty. destruct (strip line) as [|x s] eqn:Hs; [done|].
    exfalso. apply (first_field_nonempty c x s); [|done].
    intros ->. assert (is_space x = false) as Hx.
    { apply (strip_head line). by rewrite Hs. }
    congruence.
Qed.

Lemma lexicon_entry_shape_witness :
  ∃ f line, f ∈ [[lit "walk" ++ tab ++ lit "V"; tab]] ∧ line ∈ f
    ∧ lit "walk" `prefix_of` strip line
    ∧ (9%N ∉ lit "walk")
    ∧ (∀ x, head (lit "walk") = Some x → is_space x = false)
    ∧ (is_space 9 = true → lit "walk" = [] → strip line = []).
Proof.
  apply (lexicon_entry_shape [[lit "walk" ++ tab ++ lit "V"; tab]] 9
           ({[ [] ]} ∪ ({[ lit "walk" ]} ∪ ∅)) (lit "walk")).
  - vm_compute. reflexivity.
  - apply elem_of_union_r, elem_of_union_l, elem_of_singleton. reflexivity.
Defined.

Lemma read_lex_lines_empty_delimiter (line : str) (f : list str)
    (lexicon : gset (list N)) :
  for_each (read_lex_line []) (line :: f) lexicon = Raise ValueError.
Proof. reflexivity. Qed.

Lemma read_lex_no_lines (n : nat) (delimiter : str) (lexicon : gset (list N)) :
  for_each (λ lexicon f, for_each (read_lex_line delimiter) f lexicon)
    (replicate n []) lexicon
  = Ok lexicon.
Proof. induction n as [|n IH]; [done|]. simpl. apply IH. Qed.

(** X3.  The empty delimiter.  As soon as some lexicon file has a line,
    loading with an empty delimiter raises [ValueError], and so does the
    constructor whatever the rule source, since it loads the lexicon
    first; lexicon files without lines load to the empty lexicon. *)
Theorem empty_delimiter_raises `{Unicode} `{PatternEngine}
    (outside packaged : option (list (list str))) (lex_fns : list (list str)) :
  (∃ f line, f ∈ lex_fns ∧ line ∈ f) →
  _read_lex lex_fns [] = Raise ValueError
  ∧ __init__ outside packaged lex_fns [] = Raise ValueError
  ∧ ∀ n, _read_lex (replicate n []) [] = Ok ∅.
Proof.
  intros (f & line & Hf & Hline).
  assert (_read_lex lex_fns [] = Raise ValueError) as Hlex.
  { unfold _read_lex. generalize (∅ : gset (list N)).
    induction lex_fns as [|g fs IH]; intros lexicon.
    - by apply elem_of_nil in Hf.
    - rewrite for_each_cons. cbv beta. destruct g as [|l g].
      + simpl. apply IH. apply elem_of_cons in Hf as [->|Hf]; [|done].
        by apply elem_of_nil in Hline.
      + by rewrite read_lex_lines_empty_delimiter. }
  split; [done|]. split.
  - unfold __init__. by rewrite Hlex.
  - intros n. apply read_lex_no_lines.
Qed.

Lemma empty_delimiter_raises_witness :
  (∃ f line, f ∈ [[]; [lit "walk"]] ∧ line ∈ f)
  ∧ _read_lex [[]; [lit "walk"]] [] = Raise ValueError
  ∧ __init__ None None [[]; [lit "walk"]] [] = Raise ValueError
  ∧ ∀ n, _read_lex (replicate n []) [] = Ok ∅.
Proof.
  split.
  - exists [lit "walk"], (lit "walk"). split; [|by left].
    right. by left.
  - apply (@empty_delimiter_raises latin_excerpt anchored_engine None None
             [[]; [lit "walk"]]).
    exists [lit "walk"], (lit "walk"). split; [|by left].
    right. by left.
Defined.

(** ** The rule loader *)

(** X4.  Position classification.  The outcome of the anchor test says
    exactly what the pattern looks like: [Delete] for a pattern between
    double braces, [Prefix] for any other pattern that begins with [^],
    also one that ends with [$], [Suffix] for a pattern that ends with [$]
    and is of neither kind; [IndexError] is raised for the empty pattern
    only, [MalformedRuleError] for the non-empty anchorless ones only, and
    nothing else is raised. *)
Theorem classify_exact (a : str) :
  match classify a with
  | Ok Delete => take 2 a = lit "{{" ∧ drop (length a - 2) a = lit "}}"
  | Ok Prefix =>
      ¬ (take 2 a = lit "{{" ∧ drop (length a - 2) a = lit "}}")
      ∧ head a = Some 94%N
  | Ok Suffix =>
      ¬ (take 2 a = lit "{{" ∧ drop (length a - 2) a = lit "}}")
      ∧ head a ≠ Some 94%N ∧ last a = Some 36%N
  | Raise IndexError => a = []
  | Raise (MalformedRuleError a') => a' = a ∧ a ≠ [] ∧ anchorless a = true
  | Raise _ => False
  end.
Proof.
  unfold classify, anchorless. case_bool_decide as Hb; [done|]. simpl.
  unfold item0. rewrite <- !head_lookup, head_reverse.
  destruct a as [|a0 a]; [done|]. simpl.
  case_bool_decide as Hh; simpl.
  - subst a0. done.
  - destruct (last (a0 :: a)) as [al|] eqn:Hl.
    + simpl. case_bool_decide as Hd; simpl.
      * subst al. split; [done|]. split; [congruence|done].
      * split; [done|]. split; [done|].
        rewrite !bool_decide_eq_false_2; [done|congruence|congruence].
    + by apply last_None in Hl.
Qed.

Section RuleTable.
Context `{Unicode} `{PatternEngine}.

Lemma read_rules_loop (body : list (list str)) (acc rules : list rule) :
  for_each (λ rules line, r ← read_rule line; Ok (rules ++ [r])) body acc
  = Ok rules
  ↔ ∃ rs, rules = acc ++ rs
      ∧ Forall2 (λ line r, read_rule line = Ok r) body rs.
Proof.
  revert acc. induction body as [|line body IH]; intros acc.
  - simpl. split.
    + intros [= <-]. exists []. by rewrite app_nil_r.
    + intros (rs & -> & Hrs). apply Forall2_nil_inv_l in Hrs as ->.
      by rewrite app_nil_r.
  - rewrite for_each_cons. destruct (read_rule line) as [r|e] eqn:Hr; simpl.
    + rewrite IH. split.
      * intros (rs & -> & Hrs). exists (r :: rs).
        rewrite <- app_assoc. split; [done|]. by constructor.
      * intros (rs & -> & Hrs).
        apply Forall2_cons_inv_l in Hrs as (r' & rs' & Hr' & Hrs' & ->).
        rewrite Hr in Hr'. injection Hr' as <-.
        exists rs'. by rewrite <- app_assoc.
    + split; [done|]. intros (rs & -> & Hrs).
      apply Forall2_cons_inv_l in Hrs as (r' & rs' & Hr' & _).
      congruence.
Qed.
End RuleTable.

(** X5.  The rule table mirrors the file.  Once the file is found and has
    a first record, that record is ignored whatever it holds, and the
    loader returns a table exactly when every other record loads: the
    table then has one rule per record, in the order of the file. *)
Theorem read_rules_in_order `{Unicode} `{PatternEngine}
    (outside packaged : option (list (list str))) (hdr : list str)
    (body : list (list str)) (rules : list rule) :
  resolve outside packaged = Ok (hdr :: body) →
  (_read_rules outside packaged = Ok rules
   ↔ Forall2 (λ line r, read_rule line = Ok r) body rules)
  ∧ (_read_rules outside packaged = Ok rules → length rules = length body).
Proof.
  intros Hres. unfold _read_rules. rewrite Hres. simpl.
  rewrite read_rules_loop. simpl.
  assert ((∃ rs, rules = rs ∧ Forall2 (λ line r, read_rule line = Ok r) body rs)
          ↔ Forall2 (λ line r, read_rule line = Ok r) body rules) as Hiff.
  { split; [by intros (rs & -> & ?)|]. intros ?. by exists rules. }
  split; [done|]. intros Hex. apply Hiff in Hex.
  symmetry. by eapply Forall2_length.
Qed.

Lemma read_rules_in_order_witness :
  (_read_rules (Some (header :: affix_records)) None = Ok affix_rules
   ↔ Forall2 (λ line r, read_rule line = Ok r) affix_records affix_rules)
  ∧ (_read_rules (Some (header :: affix_records)) None = Ok affix_rules
     → length affix_rules = length affix_records).
Proof.
  apply (@read_rules_in_order latin_excerpt anchored_engine
           (Some (header :: affix_records)) None header affix_records
           affix_rules).
  reflexivity.
Defined.

(** X6.  What a loaded rule holds.  A record loads only if it has three
    fields; the rule then carries the position and the compiled form of
    the normalised pattern, the normalised replacement, and at least one
    gloss: the glosses contain no full stop and, joined by full stops, give
    the gloss field back. *)
Theorem read_rule_fields `{Unicode} `{PatternEngine} (line : list str)
    (pos : position) (a_re : regex) (b : str) (gl : list str) :
  read_rule line = Ok (pos, a_re, b, gl) →
  ∃ a0 b0 glosses, line = [a0; b0; glosses]
    ∧ classify (normalize a0) = Ok pos
    ∧ compile (normalize a0) = Some a_re
    ∧ b = normalize b0
    ∧ gl ≠ []
    ∧ join (lit ".") gl = glosses
    ∧ Forall (λ g, 46%N ∉ g) gl.
Proof.
  unfold read_rule.
  destruct line as [|a0 [|b0 [|glosses [|x line]]]]; try done.
  destruct (classify (normalize a0)) as [pos'|e] eqn:Hpos; [|done]. simpl.
  destruct (compile (normalize a0)) as [r|] eqn:Hre; [|done].
  change (lit ".") with [46%N]. simpl.
  intros [= <- <- <- <-]. exists a0, b0, glosses.
  repeat split; try done.
  - by destruct (split_scan_nonempty [46%N] glosses [] 0) as (f & fs & ->).
  - by apply (join_split glosses [46%N]).
  - apply split_scan_single_free. apply not_elem_of_nil.
Qed.

Lemma read_rule_fields_witness :
  ∃ a0 b0 glosses, [lit "s$"; []; lit "PL.GEN"] = [a0; b0; glosses]
    ∧ classify (normalize a0) = Ok Suffix
    ∧ compile (normalize a0)
      = Some {| bol := false; body := lit "s"; eol := true |}
    ∧ [] = normalize b0
    ∧ [lit "PL"; lit "GEN"] ≠ []
    ∧ join (lit ".") [lit "PL"; lit "GEN"] = glosses
    ∧ Forall (λ g, 46%N ∉ g) [lit "PL"; lit "GEN"].
Proof.
  apply (@read_rule_fields latin_excerpt anchored_engine
           [lit "s$"; []; lit "PL.GEN"] Suffix
           {| bol := false; body := lit "s"; eol := true |} []
           [lit "PL"; lit "GEN"]).
  vm_compute. reflexivity.
Defined.

(** X7.  What the constructor returns.  With a non-empty delimiter the
    constructor fails exactly as the rule loader does and with the same
    exception; when it succeeds the stemmer holds the table the rule
    loader returns, and its lexicon is the set of the first fields of the
    stripped lines of the lexicon files. *)
Theorem init_outcome `{Unicode} `{PatternEngine}
    (outside packaged : option (list (list str))) (lex_fns : list (list str))
    (delimiter : str) :
  delimiter ≠ [] →
  match __init__ outside packaged lex_fns delimiter with
  | Ok self =>
      _read_rules outside packaged = Ok (rules self)
      ∧ ∀ e, e ∈ lexicon self
          ↔ ∃ f line, f ∈ lex_fns ∧ line ∈ f
              ∧ e = first_field delimiter (strip line)
  | Raise e => _read_rules outside packaged = Raise e
  end.
Proof.
  intros Hd. unfold __init__.
  destruct (read_lex_entries lex_fns delimiter Hd) as (lexicon & -> & Hiff).
  simpl. destruct (_read_rules outside packaged) as [rules|e]; simpl; done.
Qed.

Lemma init_outcome_witness :
  tab ≠ []
  ∧ match __init__ (Some (header :: un_rules)) None [[lit "happy"]] tab with
    | Ok self =>
        _read_rules (Some (header :: un_rules)) None = Ok (rules self)
        ∧ ∀ e, e ∈ lexicon self
            ↔ ∃ f line, f ∈ [[lit "happy"]] ∧ line ∈ f
                ∧ e = first_field tab (strip line)
    | Raise e => _read_rules (Some (header :: un_rules)) None = Raise e
    end.
Proof.
  split; [discriminate|].
  apply (@init_outcome latin_excerpt anchored_engine
           (Some (header :: un_rules)) None [[lit "happy"]] tab).
  discriminate.
Defined.

(** * Further properties of the analysis *)

Section Analysis.
Context `{Unicode} `{PatternEngine}.

Lemma substitute_no_match (r : regex) (b s : str) :
  search r s = None → substitute r b s 0 = s ∧ substitute r b s 1 = s.
Proof.
  intros Hs. split.
  - rewrite sub_all. unfold finditer, sub_fuel.
    replace (2 * length s + 2) with (S (2 * length s + 1)) by lia.
    simpl. unfold search in Hs. by rewrite Hs.
  - by rewrite sub_first, Hs.
Qed.

Lemma stem_loop_empty_lexicon (rules : list rule) (token : str) :
  forallb accepted rules = true →
  stem_loop ∅ rules token
  = Ok (foldl (λ t (r : rule), substitute r.1.1.2 r.1.2 t 0) token rules).
Proof.
  revert token. induction rules as [|[[[pos a_re] b] gl] rules IH];
    intros token Hall; simpl; [done|].
  simpl in Hall. apply andb_true_iff in Hall as [Hok Hall].
  unfold accepted in Hok. simpl in Hok.
  rewrite bool_decide_eq_false_2 by apply not_elem_of_empty.
  unfold sub. rewrite Hok. simpl. by apply IH.
Qed.

(** The residual stem, or the exception, does not depend on the gloss flag
    nor on what the deques hold. *)
Lemma _parse_loop_stem (lexicon : gset (list N)) (g g' : bool)
    (rules : list rule) (p p' : list str) (t : str) (s s' : list str) :
  (λ x, x.1.2) <$> _parse_loop lexicon g rules p t s
  = (λ x, x.1.2) <$> _parse_loop lexicon g' rules p' t s'.
Proof.
  revert p p' t s s'. induction rules as [|[[[pos a_re] b] gl] rules IH];
    intros p p' t s s'; simpl; [done|].
  case_bool_decide; [done|].
  destruct (search a_re t) as [mt|]; [|apply IH].
  destruct (record_evidence g _ _ _ p s) as [p1 s1].
  destruct (record_evidence g' _ _ _ p' s') as [p2 s2].
  destruct (sub a_re b t 1) as [t'|e]; simpl; [apply IH|done].
Qed.

Lemma record_evidence_length (g : bool) (pos : position) (gl : list str)
    (m : str) (p s : list str) :
  length (record_evidence g pos gl m p s).1
    + length (record_evidence g pos gl m p s).2
  ≤ length p + length s + (if g then length gl else 1).
Proof.
  unfold record_evidence. destruct (class_re_match m); simpl; [lia|].
  destruct g, pos; simpl;
    rewrite ?extendleft_reverse, ?length_app, ?length_reverse; simpl; lia.
Qed.

Lemma push_bound_affixes (rules : list rule) :
  sum_list (push_bound false <$> rules) = length rules.
Proof.
  induction rules as [|r rs IH]; [done|].
  rewrite fmap_cons. simpl. by rewrite IH.
Qed.

Lemma _parse_loop_length (lexicon : gset (list N)) (g : bool)
    (rules : list rule) (p : list str) (t : str) (s : list str)
    (p' : list str) (t' : str) (s' : list str) :
  _parse_loop lexicon g rules p t s = Ok (p', t', s') →
  length p' + length s'
  ≤ length p + length s + sum_list (push_bound g <$> rules).
Proof.
  revert p t s. induction rules as [|[[[pos a_re] b] gl] rules IH];
    intros p t s; simpl.
  { intros [= <- <- <-]. lia. }
  case_bool_decide; [intros [= <- <- <-]; lia|].
  destruct (search a_re t) as [mt|].
  - pose proof (record_evidence_length g pos gl (group0 t mt) p s) as Hrec.
    destruct (record_evidence g pos gl (group0 t mt) p s) as [p1 s1].
    destruct (sub a_re b t 1) as [t1|e]; simpl; [|done].
    intros Hloop. apply IH in Hloop.
    simpl in Hrec. unfold push_bound, fmap in *. simpl. lia.
  - intros Hloop. apply IH in Hloop. unfold fmap in *. lia.
Qed.

Lemma _parse_loop_glosses (table : list rule) (lexicon : gset (list N))
    (rules : list rule) (p : list str) (t : str) (s : list str)
    (p' : list str) (t' : str) (s' : list str) :
  rules ⊆ table →
  Forall (gloss_in_table table) p → Forall (gloss_in_table table) s →
  _parse_loop lexicon true rules p t s = Ok (p', t', s') →
  Forall (gloss_in_table table) p' ∧ Forall (gloss_in_table table) s'.
Proof.
  revert p t s. induction rules as [|[[[pos a_re] b] gl] rules IH];
    intros p t s Hsub Hp Hs; simpl.
  { by intros [= <- <- <-]. }
  assert (rules ⊆ table) as Hsub'.
  { intros r Hr. apply Hsub. by right. }
  case_bool_decide; [by intros [= <- <- <-]|].
  destruct (search a_re t) as [mt|]; [|by apply IH].
  assert (pos ≠ Delete → Forall (gloss_in_table table) gl) as Hgl.
  { intros Hpos. apply Forall_forall. intros g Hg.
    exists pos, a_re, b, gl. split; [|done]. apply Hsub. by left. }
  unfold record_evidence.
  destruct (sub a_re b t 1) as [t1|e]; simpl;
    [|by destruct (class_re_match _), pos].
  destruct (class_re_match _); [by apply IH|].
  destruct pos; apply IH; try done.
  - apply Forall_app. split; [done|]. by apply Hgl.
  - rewrite extendleft_reverse. apply Forall_app. split; [|done].
    apply Forall_reverse. by apply Hgl.
Qed.

Lemma not_elem_of_take_drop (c : N) (t : str) (n : nat) :
  c ∉ t → (c ∉ take n t) ∧ (c ∉ drop n t).
Proof.
  intros Hc. rewrite <- (take_drop n t) in Hc.
  rewrite elem_of_app in Hc. tauto.
Qed.

(** With stripping rules and no line feed in the token, the loop does
    not raise, and the deques and the token always spell the token the
    loop started from. *)
Lemma _parse_loop_spells (lexicon : gset (list N)) (rules : list rule)
    (p : list str) (t : str) (s : list str) :
  Forall strips rules → 10%N ∉ t →
  ∃ p' t' s', _parse_loop lexicon false rules p t s = Ok (p', t', s')
    ∧ concat p' ++ t' ++ concat s' = concat p ++ t ++ concat s.
Proof.
  revert p t s. induction rules as [|[[[pos a_re] b] gl] rules IH];
    intros p t s Hrules Hnl; simpl; [by eauto|].
  apply Forall_cons in Hrules as [[Hok Hrule] Hrules].
  case_bool_decide; [by eauto|].
  destruct (search a_re t) as [[b' e]|] eqn:Hs; [|by apply IH].
  destruct (Hrule t b' e Hnl Hs) as (Hclass & Hexp & Hpos).
  unfold sub. rewrite Hok, sub_first, Hs, Hexp.
  unfold record_evidence, group0. simpl.
  rewrite Hclass. destruct pos; [done| |].
  - subst b'. simpl.
    destruct (IH (p ++ [slice t 0 e]) (drop e t) s Hrules)
      as (p' & t' & s' & -> & Heq);
      [by apply not_elem_of_take_drop|].
    eexists _, _, _. split; [reflexivity|]. rewrite Heq. unfold slice.
    rewrite concat_app, Nat.sub_0_r. simpl.
    rewrite app_nil_r, <- !app_assoc.
    by rewrite (app_assoc (take e t)), take_drop.
  - subst e. rewrite drop_all, app_nil_r.
    destruct (IH p (take b' t) (slice t b' (length t) :: s) Hrules)
      as (p' & t' & s' & -> & Heq);
      [by apply not_elem_of_take_drop|].
    eexists _, _, _. split; [reflexivity|]. rewrite Heq. unfold slice. simpl.
    rewrite (take_ge (drop b' t)) by (rewrite length_drop; lia).
    by rewrite (app_assoc (take b' t)), take_drop.
Qed.

(** Where every rule is single-shot, [stem] and [_parse] rewrite the
    token alike. *)
Lemma stem_loop_parse_loop (lexicon : gset (list N)) (g : bool)
    (rules : list rule) (p : list str) (t : str) (s : list str) :
  Forall single_shot rules →
  stem_loop lexicon rules t
  = (λ x, x.1.2) <$> _parse_loop lexicon g rules p t s.
Proof.
  revert p t s. induction rules as [|[[[pos a_re] b] gl] rules IH];
    intros p t s Hrules; simpl; [done|].
  apply Forall_cons in Hrules as [[Hok Hrule] Hrules].
  case_bool_decide; [done|].
  unfold sub. rewrite Hok. simpl.
  destruct (search a_re t) as [mt|] eqn:Hs.
  - destruct (record_evidence _ _ _ _ _ _) as [p' s'].
    rewrite (Hrule t). by apply IH.
  - rewrite (proj1 (substitute_no_match a_re b t Hs)). by apply IH.
Qed.


Lemma _parse_loop_delete (lexicon : gset (list N)) (g : bool)
    (rules : list rule) (p : list str) (t : str) (s : list str)
    (p' : list str) (t' : str) (s' : list str) :
  Forall (λ r : rule, r.1.1.1 = Delete) rules →
  _parse_loop lexicon g rules p t s = Ok (p', t', s') → p' = p ∧ s' = s.
Proof.
  revert p t s. induction rules as [|[[[pos a_re] b] gl] rules IH];
    intros p t s Hrules; simpl.
  { by intros [= <- <- <-]. }
  apply Forall_cons in Hrules as [Hrule Hrules]. simpl in Hrule. subst pos.
  case_bool_decide; [by intros [= <- <- <-]|].
  destruct (search a_re t) as [mt|]; [|by apply IH].
  unfold record_evidence.
  destruct (sub a_re b t 1) as [t1|e]; simpl;
    [|by destruct (class_re_match _), g].
  destruct (class_re_match _), g; by apply IH.
Qed.
End Analysis.

(** ** Patterns tied to the start of the string *)

Lemma scan_None `{PatternEngine} (r : regex) (s : str) (pos : nat) (adv : bool)
    (n : nat) :
  (∀ p, pos ≤ p → match_at r s p (adv && bool_decide (p = pos)) = None) →
  scan r s pos adv n = None.
Proof.
  revert pos adv. induction n as [|n IH]; intros pos adv Hnone; simpl.
  - specialize (Hnone pos (le_n _)).
    rewrite bool_decide_eq_true_2, andb_true_r in Hnone by done.
    by rewrite Hnone.
  - pose proof (Hnone pos (le_n _)) as Hpos.
    rewrite bool_decide_eq_true_2, andb_true_r in Hpos by done.
    rewrite Hpos. apply IH. intros p Hp. simpl.
    specialize (Hnone p ltac:(lia)).
    rewrite bool_decide_eq_false_2, andb_false_r in Hnone by lia. done.
Qed.

Lemma anchored_bol_search (r : anchored) (s : str) (b' e : nat) :
  bol r = true →
  search (H := anchored_engine) r s = Some (b', e) →
  b' = 0 ∧ e = length (body r) ∧ starts_with (body r) s = true.
Proof.
  intros Hbol Hs. unfold search, search_from in Hs.
  apply scan_Some in Hs as [_ Hm]. simpl in Hm.
  unfold anchored_match_at in Hm. rewrite Hbol in Hm. simpl in Hm.
  revert Hm. destruct (Nat.eqb_spec b' 0) as [->|Hne]; simpl; [|done].
  rewrite drop_0.
  destruct (starts_with (body r) s) eqn:Hst; simpl; [|done].
  destruct (_ || _); [done|]. by intros [= <-].
Qed.

Lemma anchored_bol_no_second (r : anchored) (s : str) (b' e : nat) (fuel : nat) :
  bol r = true →
  search (H := anchored_engine) r s = Some (b', e) →
  matches_from (H := anchored_engine) r s e (e =? b') fuel = [].
Proof.
  intros Hbol Hs. destruct fuel as [|fuel]; [done|]. simpl.
  apply anchored_bol_search in Hs as (-> & -> & _); [|done].
  unfold search_from. rewrite scan_None; [done|].
  intros p Hp. simpl. unfold anchored_match_at. rewrite Hbol. simpl.
  destruct (Nat.eqb_spec p 0) as [->|Hne]; simpl; [|done].
  assert (length (body r) = 0) as -> by lia. simpl.
  by rewrite !orb_true_r.
Qed.

Lemma anchored_bol_single_shot (pos : position) (r : anchored) (b : str)
    (gl : list str) :
  bol r = true → anchored_template_ok r b = true →
  single_shot (H := anchored_engine) (pos, r, b, gl).
Proof.
  intros Hbol Hok. split; [done|]. intros s.
  rewrite sub_all, sub_first_spans. f_equal.
  symmetry. apply take_ge. unfold finditer, sub_fuel.
  replace (2 * length s + 2) with (S (2 * length s + 1)) by lia. simpl.
  destruct (search_from (H := anchored_engine) r s 0 false)
    as [[b' e]|] eqn:Hs; [|simpl; lia].
  rewrite (anchored_bol_no_second r s b' e) by done. simpl. lia.
Qed.

Lemma prefix_un_strips : strips (Prefix, prefix_un, [], [lit "neg"]).
Proof.
  split; [done|]. intros s b' e _ Hs.
  apply anchored_bol_search in Hs as (-> & -> & Hst); [|done].
  split; [|done]. apply starts_with_app in Hst.
  rewrite Hst. vm_compute. reflexivity.
Qed.

(** ** Patterns tied to the end of the string *)

Lemma anchored_eol_search (r : anchored) (s : str) (b' e : nat) :
  eol r = true → 10%N ∉ s →
  search (H := anchored_engine) r s = Some (b', e) →
  e = length s ∧ e = b' + length (body r)
  ∧ starts_with (body r) (drop b' s) = true.
Proof.
  intros Heol Hnl Hs. unfold search, search_from in Hs.
  apply scan_Some in Hs as [_ Hm]. simpl in Hm.
  unfold anchored_match_at in Hm. rewrite Heol in Hm. simpl in Hm.
  revert Hm.
  destruct (starts_with (body r) (drop b' s)) eqn:Hst;
    [|by rewrite orb_true_r].
  rewrite orb_false_r. simpl.
  destruct (at_end s (b' + length (body r))) eqn:Hend; simpl;
    [|by rewrite orb_true_r].
  destruct (_ || _); [done|]. intros [= <-].
  split; [|done]. unfold at_end in Hend.
  apply orb_true_iff in Hend as [Hend|Hend].
  - by apply Nat.eqb_eq in Hend.
  - apply andb_true_iff in Hend as [_ Hnl'].
    apply bool_decide_eq_true in Hnl'.
    apply list_elem_of_lookup_2 in Hnl'. done.
Qed.

Lemma suffix_s_strips : strips (Suffix, suffix_s, [], [lit "PL"]).
Proof.
  split; [done|]. intros s b' e Hnl Hs.
  apply anchored_eol_search in Hs as (Hlen & -> & Hst); [|done..].
  split; [|done]. apply starts_with_app in Hst.
  unfold slice. rewrite Hst.
  replace (b' + length (body suffix_s) - b') with (length (body suffix_s))
    by lia.
  rewrite take_app_length. vm_compute. reflexivity.
Qed.

(** ** Evidence and stems *)

(** X8.  Rules are tried in table order.  The rules whose substitution
    [stem] runs, and the rules whose pattern [_parse] searches, are the
    first few rules of the table, each once and in order; the rules
    [_parse] substitutes are some of those it searched, in order. *)
Theorem rules_tried_in_order `{Unicode} `{PatternEngine} (self : Stemmer)
    (token : str) (gloss : bool) :
  substituted (stem_log self token)
  = seq 0 (length (substituted (stem_log self token)))
  ∧ searched (_parse_log self token gloss)
    = seq 0 (length (searched (_parse_log self token gloss)))
  ∧ substituted (_parse_log self token gloss)
    `sublist_of` searched (_parse_log self token gloss).
Proof.
  unfold stem_log, _parse_log.
  destruct (stem_trace_spec (lexicon self) (rules self) 0 (normalize token))
    as (l & -> & Hseq & _).
  destruct (_parse_trace_spec (lexicon self) gloss (rules self) 0 []
              (normalize token) []) as (l' & -> & Hseq' & Hsub & _).
  done.
Qed.

(** X9.  The empty lexicon.  A stemmer without lexicon, over a table
    whose replacement templates are all accepted, never stops early:
    [stem] runs the substitution of every rule, in table order, and
    returns the normalised token rewritten by all of them in turn;
    [_parse] searches every pattern. *)
Theorem empty_lexicon_exhausts `{Unicode} `{PatternEngine} (table : list rule)
    (token : str) (gloss : bool) :
  forallb accepted table = true →
  stem {| lexicon := ∅; rules := table |} token
  = Ok (foldl (λ t (r : rule), substitute r.1.1.2 r.1.2 t 0)
          (normalize token) table)
  ∧ halted (stem_log {| lexicon := ∅; rules := table |} token) = Exhausted
  ∧ substituted (stem_log {| lexicon := ∅; rules := table |} token)
    = seq 0 (length table)
  ∧ halted (_parse_log {| lexicon := ∅; rules := table |} token gloss)
    = Exhausted
  ∧ searched (_parse_log {| lexicon := ∅; rules := table |} token gloss)
    = seq 0 (length table).
Proof.
  intros Hall. split; [by apply stem_loop_empty_lexicon|].
  unfold stem_log, _parse_log. simpl.
  destruct (stem_trace_spec ∅ table 0 (normalize token))
    as (l & -> & Hseq & Hhalt).
  destruct (_parse_trace_spec ∅ gloss table 0 [] (normalize token) [])
    as (l' & -> & Hseq' & _ & Hhalt' & _).
  simpl.
  assert (∀ tried r h, halts_on ∅ table 0 tried r h →
            h = Exhausted ∧ length tried = length table) as Hex.
  { intros tried r h Hh. unfold halts_on in Hh.
    destruct h, r as [t|e]; try done.
    - destruct Hh as [Hin _]. by apply not_elem_of_empty in Hin.
    - destruct Hh as (_ & _ & i & r & _ & Hr & Hbad).
      rewrite Nat.sub_0_r in Hr.
      rewrite (accepted_lookup _ _ _ Hall Hr) in Hbad. done. }
  destruct (Hex _ _ _ Hhalt) as [-> Hlen].
  destruct (Hex _ _ _ Hhalt') as [-> Hlen'].
  rewrite Hseq, Hseq', Hlen, Hlen'. done.
Qed.

Lemma empty_lexicon_exhausts_witness :
  forallb accepted affix_rules = true
  ∧ stem {| lexicon := ∅; rules := affix_rules |} (lit "un-walks")
    = Ok (lit "walk")
  ∧ substituted (stem_log {| lexicon := ∅; rules := affix_rules |}
                   (lit "un-walks"))
    = [0; 1].
Proof.
  split; [reflexivity|].
  destruct (@empty_lexicon_exhausts latin_excerpt anchored_engine affix_rules
              (lit "un-walks") false eq_refl) as (Hstem & _ & Hsub & _).
  split.
  - etrans; [apply Hstem|]. vm_compute. reflexivity.
  - etrans; [apply Hsub|]. reflexivity.
Defined.

(** X10.  The output shapers agree.  [parse], [gloss], [parse_wp] and
    [segment] return the same residual stem, or raise alike; joining the
    morphemes of [parse] gives the three parts of [segment] joined; and
    the entries of [gloss] are that stem and the glosses in the set of
    [parse_wp], the stem sitting right after the prefix glosses. *)
Theorem shapers_agree `{Unicode} `{PatternEngine} (self : Stemmer)
    (token : str) :
  fst <$> parse_wp self token = (λ x, x.1.2) <$> _parse self token false
  ∧ (λ x, x.1.2) <$> segment self token
    = (λ x, x.1.2) <$> _parse self token false
  ∧ (λ x, x.1.2) <$> _parse self token true
    = (λ x, x.1.2) <$> _parse self token false
  ∧ (λ l, concat l) <$> parse self token false
    = (λ x, x.1.1 ++ x.1.2 ++ x.2) <$> segment self token
  ∧ match gloss self token, parse_wp self token, _parse self token true with
    | Ok morphemes, Ok (stem, glosses), Ok (prefixes, _, _) =>
        (∀ g, g ∈ morphemes ↔ g = stem ∨ g ∈ glosses)
        ∧ morphemes !! length prefixes = Some stem
    | Raise e, Raise e', Raise e'' => e = e' ∧ e = e''
    | _, _, _ => False
    end.
Proof.
  pose proof (_parse_loop_stem (lexicon self) true false (rules self) [] []
                (normalize token) [] []) as Hstem.
  unfold gloss, parse, parse_wp, segment, _parse in *.
  destruct (_parse_loop (lexicon self) true _ _ _ _) as [[[p1 t1] s1]|e1];
    destruct (_parse_loop (lexicon self) false _ _ _ _) as [[[p2 t2] s2]|e2];
    simpl in *; try done.
  repeat split; try done.
  - by rewrite !concat_app, <- app_assoc; simpl; rewrite app_nil_r.
  - rewrite !elem_of_app, list_elem_of_singleton, elem_of_list_to_set,
      elem_of_app. tauto.
  - rewrite !elem_of_app, list_elem_of_singleton, elem_of_list_to_set,
      elem_of_app. tauto.
  - rewrite <- app_assoc. simpl. by apply list_lookup_middle.
Qed.

(** X11.  How long a parse can be.  Without glosses [parse] returns
    the stem and at most one affix per rule; with glosses, the stem and at
    most as many glosses as the table holds. *)
Theorem parse_length `{Unicode} `{PatternEngine} (self : Stemmer)
    (token : str) (gloss : bool) :
  match parse self token gloss with
  | Ok morphemes =>
      1 ≤ length morphemes
      ∧ length morphemes ≤ S (sum_list (push_bound gloss <$> rules self))
  | Raise _ => True
  end
  ∧ match parse self token false with
    | Ok morphemes => length morphemes ≤ S (length (rules self))
    | Raise _ => True
    end.
Proof.
  assert (∀ g, match parse self token g with
               | Ok morphemes =>
                   1 ≤ length morphemes
                   ∧ length morphemes
                     ≤ S (sum_list (push_bound g <$> rules self))
               | Raise _ => True
               end) as Hbound.
  { intros g. unfold parse, _parse.
    destruct (_parse_loop _ _ _ _ _ _) as [[[p t] s]|e] eqn:Hloop;
      simpl; [|done].
    apply _parse_loop_length in Hloop. rewrite !length_app. simpl in *.
    lia. }
  split; [apply Hbound|]. specialize (Hbound false).
  destruct (parse self token false) as [morphemes|e]; [|done].
  rewrite push_bound_affixes in Hbound. tauto.
Qed.

(** X12.  Where glosses come from.  Every gloss in the set [parse_wp]
    returns is a gloss of some rule of the table that is a prefix or a
    suffix rule: the glosses of [Delete] rules never surface. *)
Theorem glosses_come_from_rules `{Unicode} `{PatternEngine} (self : Stemmer)
    (token stem : str) (glosses : gset (list N)) (g : str) :
  parse_wp self token = Ok (stem, glosses) →
  g ∈ glosses →
  ∃ pos a_re b gl,
    (pos, a_re, b, gl) ∈ rules self ∧ pos ≠ Delete ∧ g ∈ gl.
Proof.
  unfold parse_wp, _parse.
  destruct (_parse_loop _ _ _ _ _ _) as [[[p t] s]|e] eqn:Hloop;
    simpl; [|done].
  intros [= <- <-].
  apply (_parse_loop_glosses (rules self)) in Hloop as [Hp Hs]; [|done..].
  rewrite elem_of_list_to_set, elem_of_app.
  rewrite Forall_forall in Hp. rewrite Forall_forall in Hs.
  intros [Hg|Hg]; [by apply Hp|by apply Hs].
Qed.

Lemma glosses_come_from_rules_witness :
  parse_wp affix_stemmer (lit "un-walks")
  = Ok (lit "walk", list_to_set [lit "neg"; lit "PL"])
  ∧ ∃ pos a_re b gl,
      (pos, a_re, b, gl) ∈ rules affix_stemmer ∧ pos ≠ Delete
      ∧ lit "PL" ∈ gl.
Proof.
  assert (parse_wp affix_stemmer (lit "un-walks")
          = Ok (lit "walk", list_to_set [lit "neg"; lit "PL"])) as Hwp.
  { assert (_parse affix_stemmer (lit "un-walks") true
            = Ok ([lit "neg"], lit "walk", [lit "PL"])) as Hp
      by (vm_compute; reflexivity).
    unfold parse_wp. rewrite Hp. reflexivity. }
  split; [exact Hwp|].
  apply (@glosses_come_from_rules latin_excerpt anchored_engine
           affix_stemmer (lit "un-walks") _ _ (lit "PL") Hwp).
  apply elem_of_list_to_set. right. by left.
Defined.

(** X13.  Segmentation spells the word.  When every rule of the table
    only strips an affix and the normalised token has no line feed,
    [segment] does not raise and the three parts it returns, put together,
    are the normalised token, and so are the morphemes of [parse] put
    together. *)
Theorem segment_spells_token `{Unicode} `{PatternEngine} (self : Stemmer)
    (token : str) :
  Forall strips (rules self) →
  10%N ∉ normalize token →
  ∃ prefixes stem suffixes,
    segment self token = Ok (prefixes, stem, suffixes)
    ∧ prefixes ++ stem ++ suffixes = normalize token
    ∧ (λ l, concat l) <$> parse self token false = Ok (normalize token).
Proof.
  intros Hrules Hnl.
  destruct (_parse_loop_spells (lexicon self) (rules self) []
              (normalize token) [] Hrules Hnl) as (p & t & s & Hloop & Hspell).
  unfold parse, segment, _parse. rewrite Hloop. simpl in *.
  rewrite app_nil_r in Hspell.
  eexists _, _, _. split; [reflexivity|]. split; [done|].
  simpl. f_equal. by rewrite !concat_app, <- app_assoc; simpl; rewrite app_nil_r.
Qed.

Lemma segment_spells_token_witness :
  Forall strips (rules affix_stemmer)
  ∧ (10%N ∉ normalize (lit "un-walks"))
  ∧ segment affix_stemmer (lit "un-walks")
    = Ok (lit "un-", lit "walk", lit "s")
  ∧ ∃ prefixes stem suffixes,
      segment affix_stemmer (lit "un-walks") = Ok (prefixes, stem, suffixes)
      ∧ prefixes ++ stem ++ suffixes = normalize (lit "un-walks")
      ∧ (λ l, concat l) <$> parse affix_stemmer (lit "un-walks") false
        = Ok (normalize (lit "un-walks")).
Proof.
  assert (Forall strips (rules affix_stemmer)) as Hrules.
  { constructor; [apply suffix_s_strips|].
    constructor; [apply prefix_un_strips|constructor]. }
  assert (10%N ∉ normalize (lit "un-walks")) as Hnl.
  { assert (normalize (lit "un-walks")
            = [117; 110; 45; 119; 97; 108; 107; 115]%N) as ->
      by (vm_compute; reflexivity).
    intros Hin.
    repeat (apply elem_of_cons in Hin as [Hin|Hin]; [discriminate Hin|]).
    by apply elem_of_nil in Hin. }
  split; [exact Hrules|]. split; [exact Hnl|].
  split; [vm_compute; reflexivity|].
  apply (@segment_spells_token latin_excerpt anchored_engine affix_stemmer
           (lit "un-walks") Hrules Hnl).
Defined.

(** X14.  [stem] and the stem of [parse].  When every rule of the table
    has an accepted replacement template, and replacing every match and
    replacing the first one come to the same for it, [stem] returns the
    residual stem of [_parse], the one [parse], [gloss], [parse_wp] and
    [segment] show. *)
Theorem stem_is_parse_stem `{Unicode} `{PatternEngine} (self : Stemmer)
    (token : str) (gloss : bool) :
  Forall single_shot (rules self) →
  stem self token = (λ x, x.1.2) <$> _parse self token gloss.
Proof.
  intros Hrules. unfold stem, _parse. by apply stem_loop_parse_loop.
Qed.

Lemma stem_is_parse_stem_witness :
  Forall single_shot (rules un_stemmer)
  ∧ stem un_stemmer (lit "un-happy")
    = (λ x, x.1.2) <$> _parse un_stemmer (lit "un-happy") false.
Proof.
  assert (Forall single_shot (rules un_stemmer)) as Hrules.
  { constructor; [by apply anchored_bol_single_shot|constructor]. }
  split; [exact Hrules|].
  apply (@stem_is_parse_stem latin_excerpt anchored_engine un_stemmer
           (lit "un-happy") false Hrules).
Defined.



(** X16.  [Delete] rules leave no trace.  With a table of [Delete] rules
    only, the token is still rewritten but no affix and no gloss is
    reported: [parse] and [gloss] return the residual stem alone,
    [segment] empty affix groups and [parse_wp] the empty set. *)
Theorem delete_rules_leave_no_trace `{Unicode} `{PatternEngine}
    (self : Stemmer) (token : str) (g : bool) :
  Forall (λ r : rule, r.1.1.1 = Delete) (rules self) →
  parse self token g = (λ x, [x.1.2]) <$> _parse self token false
  ∧ gloss self token = (λ x, [x.1.2]) <$> _parse self token false
  ∧ segment self token = (λ x, ([], x.1.2, [])) <$> _parse self token false
  ∧ parse_wp self token = (λ x, (x.1.2, ∅)) <$> _parse self token false.
Proof.
  intros Hrules.
  assert (∀ g', _parse self token g'
                = (λ x, ([], x.1.2, [])) <$> _parse self token false)
    as Hparse.
  { intros g'. unfold _parse.
    pose proof (_parse_loop_delete (lexicon self) g' (rules self) []
                  (normalize token) []) as Hdel.
    pose proof (_parse_loop_stem (lexicon self) g' false (rules self) [] []
                  (normalize token) [] []) as Ht.
    destruct (_parse_loop (lexicon self) g' _ _ _ _) as [[[p t] s]|e];
      destruct (_parse_loop (lexicon self) false _ _ _ _) as [[[p2 t2] s2]|e2];
      simpl in *; try done.
    - destruct (Hdel p t s Hrules eq_refl) as [-> ->]. by injection Ht as ->.
    - by injection Ht as ->. }
  pose proof (Hparse false) as Hf.
  unfold gloss, parse, segment, parse_wp.
  rewrite (Hparse g), (Hparse true).
  destruct (_parse self token false) as [[[p t] s]|e]; simpl in *; [|done].
  injection Hf as -> ->. done.
Qed.

Lemma delete_rules_leave_no_trace_witness :
  Forall (λ r : rule, r.1.1.1 = Delete)
    (rules {| lexicon := ∅; rules := [(Delete, marker_A, lit "a", [lit "x"])] |})
  ∧ parse {| lexicon := ∅; rules := [(Delete, marker_A, lit "a", [lit "x"])] |}
      (lit "b{{A}}c") false
    = Ok [lit "bac"]
  ∧ parse_wp {| lexicon := ∅; rules := [(Delete, marker_A, lit "a", [lit "x"])] |}
      (lit "b{{A}}c")
    = Ok (lit "bac", ∅).
Proof.
  assert (Forall (λ r : rule, r.1.1.1 = Delete)
            (rules {| lexicon := ∅;
                      rules := [(Delete, marker_A, lit "a", [lit "x"])] |}))
    as Hrules by (repeat constructor).
  split; [exact Hrules|].
  destruct (@delete_rules_leave_no_trace latin_excerpt anchored_engine
              {| lexicon := ∅;
                 rules := [(Delete, marker_A, lit "a", [lit "x"])] |}
              (lit "b{{A}}c") false Hrules) as (Hparse & _ & _ & Hwp).
  split.
  - etrans; [apply Hparse|]. vm_compute. reflexivity.
  - etrans; [apply Hwp|]. vm_compute. reflexivity.
Defined.

(** X17.  Finding the rule file.  With a non-empty delimiter the
    constructor raises [FileNotFoundError] when the rule file exists
    neither at the given path nor in the package; a file at the given path
    hides the packaged one; a file without any record raises
    [StopIteration]; and a file with a header only gives a stemmer with an
    empty table, whose [stem] returns every token normalised. *)
Theorem rule_file_lookup `{Unicode} `{PatternEngine}
    (f f' : list (list str)) (packaged : option (list (list str)))
    (hdr : list str) (lex_fns : list (list str)) (delimiter : str) :
  delimiter ≠ [] →
  __init__ None None lex_fns delimiter = Raise FileNotFoundError
  ∧ __init__ (Some f) (Some f') lex_fns delimiter
    = __init__ (Some f) None lex_fns delimiter
  ∧ __init__ None (Some f) lex_fns delimiter
    = __init__ (Some f) None lex_fns delimiter
  ∧ __init__ (Some []) packaged lex_fns delimiter = Raise StopIteration
  ∧ ∃ self, __init__ (Some [hdr]) packaged lex_fns delimiter = Ok self
      ∧ rules self = []
      ∧ ∀ token, stem self token = Ok (normalize token).
Proof.
  intros Hd. unfold __init__.
  destruct (read_lex_entries lex_fns delimiter Hd) as (lexicon & -> & _).
  simpl. repeat split; try done.
  eexists. split; [reflexivity|]. done.
Qed.

Lemma rule_file_lookup_witness :
  tab ≠ []
  ∧ __init__ None None [[lit "walk"]] tab = Raise FileNotFoundError
  ∧ __init__ (Some (header :: affix_records)) (Some [header]) [[lit "walk"]] tab
    = __init__ (Some (header :: affix_records)) None [[lit "walk"]] tab
  ∧ __init__ None (Some (header :: affix_records)) [[lit "walk"]] tab
    = __init__ (Some (header :: affix_records)) None [[lit "walk"]] tab
  ∧ __init__ (Some []) None [[lit "walk"]] tab = Raise StopIteration
  ∧ ∃ self, __init__ (Some [header]) None [[lit "walk"]] tab = Ok self
      ∧ rules self = []
      ∧ ∀ token, stem self token = Ok (normalize token).
Proof.
  split; [discriminate|].
  apply (@rule_file_lookup latin_excerpt anchored_engine
           (header :: affix_records) [header] None header [[lit "walk"]] tab).
  discriminate.
Defined.

